(** * The protocol session layer of dragonfly (package [session])

    A shallow embedding of [Session]: its inbound packet handlers, its
    outbound packet senders, the packet loop with its deferred [Close],
    and [valueToParamType], which maps the value of a command parameter
    to the argument type sent in the available-commands packet.

    Calls on the collaborators of a session (the controllable, the
    connection, the global chat, the logger) are recorded in a trace of
    events; the answers of the collaborators are inputs of the model. *)

From Stdlib Require Import ZArith String List Lia.
From stdpp Require Import base option list strings gmap fin_maps.

Local Open Scope string_scope.
Local Open Scope Z_scope.

(** ** What the imported packages provide

    The session only copies command origins, renders text through
    [text.Yellow] and [net.IP.String], and uses the numeric argument
    types of package [protocol]; none of these is defined in this
    repository, so they are taken as given. *)
Class Externals := {
  (** [protocol.CommandOrigin], copied from request to output. *)
  CommandOrigin : Type;
  (** The function returned by [text.Yellow()], applied to its arguments. *)
  yellow : list string → string;
  (** [net.IP.String]; a [net.IP] is a slice of bytes. *)
  IP_String : list Byte.byte → string;
  (** The [protocol.CommandArg...] constants, all of type uint32. *)
  CommandArgValid : Z;
  CommandArgTypeInt : Z;
  CommandArgTypeFloat : Z;
  CommandArgTypeValue : Z;
  CommandArgTypeTarget : Z;
  CommandArgTypeString : Z;
  CommandArgTypePosition : Z;
}.

(** ** Go values held in an [interface{}] *)

Inductive IntKind :=
  Kint | Kint8 | Kint16 | Kint32 | Kint64
| Kuint | Kuint8 | Kuint16 | Kuint32 | Kuint64.

Inductive FloatKind := Kfloat32 | Kfloat64.

(** [mgl32.Vec3] is [[3]float32]; a component is kept as its bit pattern. *)
Definition Vec3 : Type := Z * Z * Z.

(** The dynamic type of a value together with its payload.  [DNamed]
    stands for every type the type switch of [valueToParamType] does not
    list: structs, pointers, named string types and so on. *)
Inductive Dyn :=
| DInt (k : IntKind) (n : Z)
| DFloat (k : FloatKind) (bits : Z)
| DString (s : string)
| DBool (b : bool)
| DVec3 (v : Vec3)
| DNamed (type_name : string).

(** ** Results of Go code that may panic *)

Inductive Outcome (A : Type) :=
| Ret (a : A)
| Panic.
Arguments Ret {A} a.
Arguments Panic {A}.

#[global] Instance Outcome_ret : MRet Outcome := λ A a, Ret a.
#[global] Instance Outcome_bind : MBind Outcome := λ A B f m,
  match m with
  | Ret a => f a
  | Panic => Panic
  end.

(** The methods of the dynamic type that the session asks for, each with
    the result it returns on this value: [cmd.Parameter] is [Parse] and
    [Type], [cmd.Enum] is [Type] and [Options]. *)
Record Methods := {
  has_Parse : bool;
  Type_method : option string;
  Options_method : option (list string);
}.

Definition no_methods : Methods :=
  {| has_Parse := false; Type_method := None; Options_method := None |}.

(** The same methods with what a call of each does on this value: it
    returns a result, or it panics inside the method, as every method
    with a value receiver does when it is called through a nil
    pointer. *)
Record MethodCalls := {
  Parse_declared : bool;
  Type_call : option (Outcome string);
  Options_call : option (Outcome (list string));
}.

(** Methods that return when they are called. *)
Definition calls_of (ms : Methods) : MethodCalls :=
  {| Parse_declared := has_Parse ms;
     Type_call := Ret <$> Type_method ms;
     Options_call := Ret <$> Options_method ms |}.

(** An [interface{}] value: nil; a dynamic value whose methods return
    when called; or a value of a type the type switch of
    [valueToParamType] does not list, given with what a call of each of
    its methods does. *)
Inductive Value :=
| VNil
| VDyn (d : Dyn) (ms : Methods)
| VCalls (type_name : string) (calls : MethodCalls).

(** [i == b] for an interface value [i] and a boolean constant [b]: the
    dynamic types must agree and the values be equal. *)
Definition interface_eq_bool (i : Value) (b : bool) : bool :=
  match i with
  | VDyn (DBool b') _ => Bool.eqb b' b
  | _ => false
  end.

(** The methods of the dynamic type of a value; the nil interface has
    none. *)
Definition method_calls (i : Value) : option MethodCalls :=
  match i with
  | VNil => None
  | VDyn _ ms => Some (calls_of ms)
  | VCalls _ calls => Some calls
  end.

(** An interface value of type [cmd.Parameter] or [cmd.Enum]: [None] is
    the nil interface, [Some calls] a value whose method set satisfies
    it. *)
Definition Iface : Type := option MethodCalls.

(** [i.(cmd.Parameter)] in its two-result form: whether the assertion
    holds depends on the methods the type has, not on what they do. *)
Definition assertParameter (i : Value) : Iface * bool :=
  match method_calls i with
  | Some calls =>
      if Parse_declared calls && bool_decide (is_Some (Type_call calls))
      then (Some calls, true) else (None, false)
  | None => (None, false)
  end.

(** [i.(cmd.Enum)] in its two-result form. *)
Definition assertEnum (i : Value) : Iface * bool :=
  match method_calls i with
  | Some calls =>
      if bool_decide (is_Some (Type_call calls))
         && bool_decide (is_Some (Options_call calls))
      then (Some calls, true) else (None, false)
  | None => (None, false)
  end.

(** A method call on an interface value: on the nil interface it is a
    nil dereference, which panics; otherwise it does what the method
    does on the value. *)
Definition call_Type (x : Iface) : Outcome string :=
  match x with
  | Some calls => match Type_call calls with Some o => o | None => Panic end
  | None => Panic
  end.

Definition call_Options (x : Iface) : Outcome (list string) :=
  match x with
  | Some calls =>
      match Options_call calls with Some o => o | None => Panic end
  | None => Panic
  end.

(** ** package protocol: the parts of packets the session fills in *)

Record CommandEnum := {
  EnumType : string;
  EnumOptions : list string;
}.

(** The zero value of [protocol.CommandEnum]. *)
Definition CommandEnum_zero : CommandEnum :=
  {| EnumType := ""; EnumOptions := [] |}.

Section Session.
Context `{Externals}.

(** [a && b || c] is [(a && b) || c] in Go, with both operators
    short-circuiting. Each of [a], [b], [c] is a computation. *)
Definition and_then_or (a : bool) (b c : Outcome bool) : Outcome bool :=
  ab ← (if a then b else mret false);
  if (ab : bool) then mret true else c.

(** [valueToParamType]: the type switch first, then the two interface
    assertions, then [CommandArgTypeValue]. The named result [enum]
    holds its zero value wherever the source returns it untouched. *)
Definition valueToParamType (i : Value) : Outcome (Z * CommandEnum) :=
  let enum := CommandEnum_zero in
  let after_switch : Outcome (Z * CommandEnum) :=
    let '(param, ok) := assertParameter i in
    is_target ← and_then_or ok
      (t ← call_Type param; mret (String.eqb t "player"))
      (t ← call_Type param; mret (String.eqb t "target"));
    if (is_target : bool) then mret (CommandArgTypeTarget, enum)
    else
      let '(enum', ok') := assertEnum i in
      if ok' then
        ty ← call_Type enum';
        opts ← call_Options enum';
        mret (0, {| EnumType := ty; EnumOptions := opts |})
      else mret (CommandArgTypeValue, enum) in
  match i with
  | VDyn (DInt _ _) _ => mret (CommandArgTypeInt, enum)
  | VDyn (DFloat _ _) _ => mret (CommandArgTypeFloat, enum)
  | VDyn (DString _) _ => mret (CommandArgTypeString, enum)
  | VDyn (DBool _) _ =>
      mret (0, {| EnumType := "bool";
                  EnumOptions := ["true"; "1"; "false"; "0"] |})
  | VDyn (DVec3 _) _ => mret (CommandArgTypePosition, enum)
  | _ => after_switch
  end.

(** A value none of the cases of the type switch lists. *)
Definition past_switch (i : Value) : bool :=
  match i with
  | VNil | VDyn (DNamed _) _ | VCalls _ _ => true
  | _ => false
  end.

(** ** package packet: the packets the session reads and writes *)

(** The [packet.TextType...] constants. *)
Inductive TextType :=
| TextTypeRaw
| TextTypeChat
| TextTypeTranslation
| TextTypePopup
| TextTypeJukeboxPopup
| TextTypeTip
| TextTypeSystem
| TextTypeWhisper
| TextTypeAnnouncement.

#[global] Instance TextType_eq_dec : EqDecision TextType.
Proof. solve_decision. Defined.

(** The [packet.TitleAction...] constants the session uses. *)
Inductive TitleAction :=
| TitleActionSetTitle
| TitleActionSetSubtitle
| TitleActionSetActionBar.

(** The [packet.Dimension...] constants. *)
Inductive Dimension :=
| DimensionOverworld
| DimensionNether
| DimensionEnd.

Record Text := {
  Text_TextType : TextType;
  Text_SourceName : string;
  Text_Message : string;
}.

Record CommandRequest := {
  CommandRequest_CommandLine : string;
  CommandRequest_CommandOrigin : CommandOrigin;
  CommandRequest_Internal : bool;
}.

Record SetTitle := {
  SetTitle_ActionType : TitleAction;
  SetTitle_Text : string;
  SetTitle_FadeInDuration : Z;
  SetTitle_RemainDuration : Z;
  SetTitle_FadeOutDuration : Z;
}.

Record ChangeDimension := {
  ChangeDimension_Dimension : Dimension;
  ChangeDimension_Position : Vec3;
  ChangeDimension_Respawn : bool;
}.

Record Disconnect_pk := {
  Disconnect_HideDisconnectionScreen : bool;
  Disconnect_Message : string;
}.

Record Transfer_pk := {
  Transfer_Address : string;
  Transfer_Port : Z;
}.

Record CommandOutputMessage := {
  CommandOutputMessage_Success : bool;
  CommandOutputMessage_Message : string;
}.

Record CommandOutput := {
  CommandOutput_CommandOrigin : CommandOrigin;
  CommandOutput_OutputType : Z;
  CommandOutput_SuccessCount : Z;
  CommandOutput_OutputMessages : list CommandOutputMessage;
}.

Record CommandParameter := {
  CommandParameter_Name : string;
  CommandParameter_Type : Z;
  CommandParameter_Optional : bool;
  CommandParameter_CollapseEnumOptions : bool;
  CommandParameter_Enum : CommandEnum;
  CommandParameter_Suffix : string;
}.

Record CommandOverload := {
  CommandOverload_Parameters : list CommandParameter;
}.

Record Command := {
  Command_Name : string;
  Command_Description : string;
  Command_Aliases : list string;
  Command_Overloads : list CommandOverload;
}.

Record AvailableCommands := {
  AvailableCommands_Commands : list Command;
}.

(** A [packet.Packet]: the two kinds [handlePacket] has a case for, the
    kinds the senders build, and [POther] for every other kind. *)
Inductive Packet :=
| PText (pk : Text)
| PCommandRequest (pk : CommandRequest)
| PSetTitle (pk : SetTitle)
| PChangeDimension (pk : ChangeDimension)
| PDisconnect (pk : Disconnect_pk)
| PTransfer (pk : Transfer_pk)
| PCommandOutput (pk : CommandOutput)
| PAvailableCommands (pk : AvailableCommands)
| POther (id : Z).

(** ** package cmd: commands and their output *)

(** An [error] value made by a collaborator; the session only tests it
    against nil and reads its text. *)
Record error := { Error : string }.

Record ParamInfo := {
  ParamInfo_Name : string;
  ParamInfo_Value : Value;
  ParamInfo_Optional : bool;
  ParamInfo_Suffix : string;
}.

(** A [cmd.Command] as seen through [Name()], [Description()],
    [Aliases()] and [Params()]. *)
Record cmd_Command := {
  Name : string;
  Description : string;
  Aliases : list string;
  Params : list (list ParamInfo);
}.

(** A [cmd.Output] as seen through [Messages()] and [Errors()]. *)
Record Output := {
  Messages : list string;
  Errors : list error;
}.

(** [MessageCount()] and [ErrorCount()] are Go ints: the lengths of the
    two slices. *)
Definition MessageCount (o : Output) : Z := Z.of_nat (length (Messages o)).
Definition ErrorCount (o : Output) : Z := Z.of_nat (length (Errors o)).

(** Conversions to unsigned integer types keep the low bits. *)
Definition uint16 (n : Z) : Z := n mod 2 ^ 16.
Definition uint32 (n : Z) : Z := n mod 2 ^ 32.

(** ** The session and its collaborators *)

(** The errors [handleText] and [handleCommandRequest] build with
    [fmt.Errorf], one constructor per call. *)
Inductive ProtocolViolation :=
| text_type_not_chat (got : TextType)
    (* "text packet can only contain text type of type chat (%v) but got %v" *)
| source_name_not_display_name
    (* "text packet source name must be equal to display name" *)
| internal_field_set.
    (* "command request packet must never have the internal field set to true" *)

(** What the session does to its collaborators, in the order it does it. *)
Inductive Event :=
| Chat (message : string)                (* s.c.Chat *)
| ExecuteCommand (commandLine : string)  (* s.c.ExecuteCommand *)
| Controllable_Close                     (* s.c.Close *)
| Conn_Close                             (* s.conn.Close *)
| WritePacket (pk : Packet)              (* s.conn.WritePacket *)
| Println (line : string)                (* chat.Global.Println *)
| Errorf (err : ProtocolViolation)       (* s.log.Errorf *)
| Debugf (pk : Packet).                  (* s.log.Debugf *)

(** The fields of [Session] that change or are read: the display name
    stands for [s.conn.IdentityData().DisplayName]. *)
Record Session := {
  DisplayName : string;
  controllableClosed : bool;
  cmdOrigin : CommandOrigin;
}.

(** What the collaborators answer: the results of the two [Close] calls
    and of a packet write ([None] is a nil error). *)
Record Answers := {
  c_Close_result : option error;
  conn_Close_result : option error;
  WritePacket_result : Packet → option error;
}.

(** Session code: reads the answers, updates the session, appends to the
    trace, and returns or panics. *)
Definition M (A : Type) : Type :=
  Answers → Session → Outcome A * Session * list Event.

#[global] Instance M_ret : MRet M := λ A a _ s, (Ret a, s, []).
#[global] Instance M_bind : MBind M := λ A B f m w s,
  match m w s with
  | (Ret a, s1, t1) => let '(r, s2, t2) := f a w s1 in (r, s2, (t1 ++ t2)%list)
  | (Panic, s1, t1) => (Panic, s1, t1)
  end.

Definition get_session : M Session := λ _ s, (Ret s, s, []).
Definition put_session (s : Session) : M unit := λ _ _, (Ret (), s, []).
Definition emit (e : Event) : M unit := λ _ s, (Ret (), s, [e]).
Definition lift {A} (o : Outcome A) : M A := λ _ s, (o, s, []).

Definition conn_WritePacket (pk : Packet) : M (option error) :=
  λ w s, (Ret (WritePacket_result w pk), s, [WritePacket pk]).
Definition c_Close : M (option error) :=
  λ w s, (Ret (c_Close_result w), s, [Controllable_Close]).
Definition conn_Close : M (option error) :=
  λ w s, (Ret (conn_Close_result w), s, [Conn_Close]).

(** The three components of a run. *)
Definition outcome_of {A} (r : Outcome A * Session * list Event) := r.1.1.
Definition session_of {A} (r : Outcome A * Session * list Event) := r.1.2.
Definition trace_of {A} (r : Outcome A * Session * list Event) := r.2.

(** The packets written during a trace. *)
Definition written (t : list Event) : list Packet :=
  omap (λ e, match e with WritePacket pk => Some pk | _ => None end) t.

Definition set_cmdOrigin (o : CommandOrigin) (s : Session) : Session :=
  {| DisplayName := DisplayName s;
     controllableClosed := controllableClosed s;
     cmdOrigin := o |}.

Definition store_controllableClosed (b : bool) (s : Session) : Session :=
  {| DisplayName := DisplayName s;
     controllableClosed := b;
     cmdOrigin := cmdOrigin s |}.

(** ** Closing *)

(** [Close]: both results of closing are discarded, nil is returned. *)
Definition Close : M (option error) :=
  _ ← c_Close;
  _ ← conn_Close;
  s ← get_session;
  emit (Println (yellow [DisplayName s; "has left the game"]));;
  mret None.

(** ** Inbound packets *)

Definition handleText (pk : Text) : M (option ProtocolViolation) :=
  s ← get_session;
  if bool_decide (Text_TextType pk ≠ TextTypeChat) then
    mret (Some (text_type_not_chat (Text_TextType pk)))
  else if bool_decide (Text_SourceName pk ≠ DisplayName s) then
    mret (Some source_name_not_display_name)
  else
    emit (Chat (Text_Message pk));;
    mret None.

Definition handleCommandRequest (pk : CommandRequest)
  : M (option ProtocolViolation) :=
  if CommandRequest_Internal pk then
    mret (Some internal_field_set)
  else
    s ← get_session;
    put_session (set_cmdOrigin (CommandRequest_CommandOrigin pk) s);;
    emit (ExecuteCommand (CommandRequest_CommandLine pk));;
    mret None.

Definition handlePacket (pk : Packet) : M (option ProtocolViolation) :=
  match pk with
  | PText pk => handleText pk
  | PCommandRequest pk => handleCommandRequest pk
  | _ => emit (Debugf pk);; mret None
  end.

(** ** Outbound packets *)

Definition SendMessage (message : string) : M unit :=
  _ ← conn_WritePacket (PText {|
         Text_TextType := TextTypeRaw;
         Text_SourceName := "";
         Text_Message := message |});
  mret ().

Definition SendTip (message : string) : M unit :=
  _ ← conn_WritePacket (PText {|
         Text_TextType := TextTypePopup;
         Text_SourceName := "";
         Text_Message := message |});
  mret ().

Definition SendAnnouncement (message : string) : M unit :=
  _ ← conn_WritePacket (PText {|
         Text_TextType := TextTypeAnnouncement;
         Text_SourceName := "";
         Text_Message := message |});
  mret ().

Definition SendPopup (message : string) : M unit :=
  _ ← conn_WritePacket (PText {|
         Text_TextType := TextTypePopup;
         Text_SourceName := "";
         Text_Message := message |});
  mret ().

Definition SendJukeBoxPopup (message : string) : M unit :=
  _ ← conn_WritePacket (PText {|
         Text_TextType := TextTypeJukeboxPopup;
         Text_SourceName := "";
         Text_Message := message |});
  mret ().

Definition SendTitle (text : string)
    (fadeInDuration remainDuration fadeOutDuration : Z) : M unit :=
  _ ← conn_WritePacket (PSetTitle {|
         SetTitle_ActionType := TitleActionSetTitle;
         SetTitle_Text := text;
         SetTitle_FadeInDuration := fadeInDuration;
         SetTitle_RemainDuration := remainDuration;
         SetTitle_FadeOutDuration := fadeOutDuration |});
  mret ().

Definition SendSubTitle (text : string)
    (fadeInDuration remainDuration fadeOutDuration : Z) : M unit :=
  _ ← conn_WritePacket (PSetTitle {|
         SetTitle_ActionType := TitleActionSetSubtitle;
         SetTitle_Text := text;
         SetTitle_FadeInDuration := fadeInDuration;
         SetTitle_RemainDuration := remainDuration;
         SetTitle_FadeOutDuration := fadeOutDuration |});
  mret ().

Definition SendActionBarMessage (text : string)
    (fadeInDuration remainDuration fadeOutDuration : Z) : M unit :=
  _ ← conn_WritePacket (PSetTitle {|
         SetTitle_ActionType := TitleActionSetActionBar;
         SetTitle_Text := text;
         SetTitle_FadeInDuration := fadeInDuration;
         SetTitle_RemainDuration := remainDuration;
         SetTitle_FadeOutDuration := fadeOutDuration |});
  mret ().

(** The zero value [mgl32.Vec3{}]. *)
Definition Vec3_zero : Vec3 := (0, 0, 0).

Definition SendNetherDimension : M unit :=
  _ ← conn_WritePacket (PChangeDimension {|
         ChangeDimension_Dimension := DimensionNether;
         ChangeDimension_Position := Vec3_zero;
         ChangeDimension_Respawn := false |});
  mret ().

Definition SendEndDimension : M unit :=
  _ ← conn_WritePacket (PChangeDimension {|
         ChangeDimension_Dimension := DimensionEnd;
         ChangeDimension_Position := Vec3_zero;
         ChangeDimension_Respawn := false |});
  mret ().

Definition SendOverworldDimension : M unit :=
  _ ← conn_WritePacket (PChangeDimension {|
         ChangeDimension_Dimension := DimensionOverworld;
         ChangeDimension_Position := Vec3_zero;
         ChangeDimension_Respawn := false |});
  mret ().

Definition Disconnect (message : string) : M unit :=
  _ ← conn_WritePacket (PDisconnect {|
         Disconnect_HideDisconnectionScreen := bool_decide (message = "");
         Disconnect_Message := message |});
  s ← get_session;
  put_session (store_controllableClosed true s).

Definition Transfer (ip : list Byte.byte) (port : Z) : M unit :=
  _ ← conn_WritePacket (PTransfer {|
         Transfer_Address := IP_String ip;
         Transfer_Port := uint16 port |});
  mret ().

(** A [for ... range] loop over a slice that appends to a slice. *)
Definition append_each {A B} (f : A → B) (l : list A) (acc : list B)
  : list B :=
  foldl (λ acc x, acc ++ [f x])%list acc l.

Definition SendCommandOutput (output : Output) : M unit :=
  let messages := [] in
  let messages :=
    append_each (λ message, {|
      CommandOutputMessage_Success := true;
      CommandOutputMessage_Message := message |})
      (Messages output) messages in
  let messages :=
    append_each (λ err, {|
      CommandOutputMessage_Success := false;
      CommandOutputMessage_Message := Error err |})
      (Errors output) messages in
  s ← get_session;
  _ ← conn_WritePacket (PCommandOutput {|
         CommandOutput_CommandOrigin := cmdOrigin s;
         CommandOutput_OutputType := 3;
         CommandOutput_SuccessCount := uint32 (MessageCount output);
         CommandOutput_OutputMessages := messages |});
  mret ().

(** [SendCommandOutput] takes a pointer to a [cmd.Output]. The
    definition above is its run on a pointer that is not nil; on the
    nil pointer, [None], [output.MessageCount()] dereferences nil
    before anything is written. *)
Definition SendCommandOutput_on (output : option Output) : M unit :=
  match output with
  | Some output => SendCommandOutput output
  | None => λ _ s, (Panic, s, [])
  end.

(** A [for i, x := range l] loop whose body may panic: [st] is what the
    body updates, [i] the index of the first element of [l]. *)
Fixpoint range {A St} (l : list A) (i : nat)
    (body : nat → A → St → Outcome St) (st : St) : Outcome St :=
  match l with
  | [] => mret st
  | x :: l' => st' ← body i x st; range l' (S i) body st'
  end.

(** The [protocol.CommandParameter] that the innermost loop of
    [SendAvailableCommands] appends for one [cmd.ParamInfo]. *)
Definition commandParameter (paramInfo : ParamInfo)
  : Outcome CommandParameter :=
  '(t, enum) ← valueToParamType (ParamInfo_Value paramInfo);
  let t := Z.lor t CommandArgValid in
  mret {|
    CommandParameter_Name := ParamInfo_Name paramInfo;
    CommandParameter_Type := t;
    CommandParameter_Optional := ParamInfo_Optional paramInfo;
    CommandParameter_CollapseEnumOptions :=
      interface_eq_bool (ParamInfo_Value paramInfo) false
      || interface_eq_bool (ParamInfo_Value paramInfo) true;
    CommandParameter_Enum := enum;
    CommandParameter_Suffix := ParamInfo_Suffix paramInfo |}.

(** [overloads[i].Parameters = append(overloads[i].Parameters, p)]; an
    index out of range panics. *)
Definition append_parameter (i : nat) (p : CommandParameter)
    (overloads : list CommandOverload) : Outcome (list CommandOverload) :=
  match overloads !! i with
  | Some o =>
      mret (<[i := {| CommandOverload_Parameters :=
                        (CommandOverload_Parameters o ++ [p])%list |}]>
              overloads)
  | None => Panic
  end.

(** The overloads built for the parameter lists of one command. *)
Definition commandOverloads (params : list (list ParamInfo))
  : Outcome (list CommandOverload) :=
  let overloads :=
    replicate (length params) {| CommandOverload_Parameters := [] |} in
  range params 0 (λ i params overloads,
    range params 0 (λ _ paramInfo overloads,
      p ← commandParameter paramInfo;
      append_parameter i p overloads) overloads) overloads.

(** The body of the loop over [cmd.Commands()]: [commands] is
    [pk.Commands]. *)
Definition availableCommand (entry : string * cmd_Command)
    (commands : list Command) : Outcome (list Command) :=
  let '(alias, c) := entry in
  if bool_decide (Name c ≠ alias) then
    (* Don't add duplicate entries for aliases. *)
    mret commands
  else
    overloads ← commandOverloads (Params c);
    mret (commands ++ [{|
      Command_Name := Name c;
      Command_Description := Description c;
      Command_Aliases := Aliases c;
      Command_Overloads := overloads |}])%list.

(** [SendAvailableCommands], given the entries of the map returned by
    [cmd.Commands()] in the order the [range] statement visits them. *)
Definition SendAvailableCommands (visited : list (string * cmd_Command))
  : M unit :=
  commands ← lift (range visited 0 (λ _, availableCommand) []);
  _ ← conn_WritePacket (PAvailableCommands {|
         AvailableCommands_Commands := commands |});
  mret ().

(** [visited] is an order in which a [range] statement may visit the
    map [commands]: every entry once, in any order. *)
Definition ranges_over (commands : gmap string cmd_Command)
    (visited : list (string * cmd_Command)) : Prop :=
  visited ≡ₚ map_to_list commands.

(** The calls of outbound senders, with their arguments. *)
Inductive Outbound :=
| call_SendMessage (message : string)
| call_SendTip (message : string)
| call_SendAnnouncement (message : string)
| call_SendPopup (message : string)
| call_SendJukeBoxPopup (message : string)
| call_SendTitle (text : string) (fadeIn remain fadeOut : Z)
| call_SendSubTitle (text : string) (fadeIn remain fadeOut : Z)
| call_SendActionBarMessage (text : string) (fadeIn remain fadeOut : Z)
| call_SendNetherDimension
| call_SendEndDimension
| call_SendOverworldDimension
| call_Disconnect (message : string)
| call_Transfer (ip : list Byte.byte) (port : Z)
| call_SendCommandOutput (output : option Output)
| call_SendAvailableCommands (visited : list (string * cmd_Command)).

Definition send (call : Outbound) : M unit :=
  match call with
  | call_SendMessage m => SendMessage m
  | call_SendTip m => SendTip m
  | call_SendAnnouncement m => SendAnnouncement m
  | call_SendPopup m => SendPopup m
  | call_SendJukeBoxPopup m => SendJukeBoxPopup m
  | call_SendTitle t a b c => SendTitle t a b c
  | call_SendSubTitle t a b c => SendSubTitle t a b c
  | call_SendActionBarMessage t a b c => SendActionBarMessage t a b c
  | call_SendNetherDimension => SendNetherDimension
  | call_SendEndDimension => SendEndDimension
  | call_SendOverworldDimension => SendOverworldDimension
  | call_Disconnect m => Disconnect m
  | call_Transfer ip port => Transfer ip port
  | call_SendCommandOutput o => SendCommandOutput_on o
  | call_SendAvailableCommands v => SendAvailableCommands v
  end.

Definition is_Disconnect (call : Outbound) : bool :=
  match call with call_Disconnect _ => true | _ => false end.

(** Following the spec, not the source: the sub-kind of text packet
    that corresponds to each of the five text senders. *)
Definition spec_TextType (call : Outbound) : option TextType :=
  match call with
  | call_SendMessage _ => Some TextTypeRaw
  | call_SendTip _ => Some TextTypeTip
  | call_SendAnnouncement _ => Some TextTypeAnnouncement
  | call_SendPopup _ => Some TextTypePopup
  | call_SendJukeBoxPopup _ => Some TextTypeJukeboxPopup
  | _ => None
  end.

(** ** The packet loop *)

(** What one call of [s.conn.ReadPacket()] returns. *)
Inductive ReadResult :=
| read_packet (pk : Packet)
| read_error (err : error).

(** One turn of the loop as the loop sees it: the [Disconnect] calls
    other goroutines make on this session before the loop loads
    [controllableClosed], and the result of [ReadPacket]. *)
Record Turn := {
  disconnects : list string;
  read : ReadResult;
}.

(** Why [handlePackets] returned. *)
Inductive Exit :=
| exit_read_error (err : error)
| exit_controllable_closed
| exit_handler_error (err : ProtocolViolation).

(** The [for] loop of [handlePackets] run on the turns given; [None]
    when they are used up and the loop is blocked in [ReadPacket]. *)
Fixpoint packet_loop (turns : list Turn) : M (option Exit) :=
  match turns with
  | [] => mret None
  | turn :: turns' =>
      mapM Disconnect (disconnects turn);;
      match read turn with
      | read_error err => mret (Some (exit_read_error err))
      | read_packet pk =>
          s ← get_session;
          if controllableClosed s then mret (Some exit_controllable_closed)
          else
            err ← handlePacket pk;
            match err with
            | Some err =>
                emit (Errorf err);;
                mret (Some (exit_handler_error err))
            | None => packet_loop turns'
            end
      end
  end.

(** [handlePackets]: the deferred call of [Close] runs when the loop
    returns or panics, and its result is discarded. *)
Definition handlePackets (turns : list Turn) : M (option Exit) :=
  λ w s,
    match packet_loop turns w s with
    | (Ret None, s1, t1) => (Ret None, s1, t1)
    | (r, s1, t1) =>
        let '(_, s2, t2) := Close w s1 in (r, s2, (t1 ++ t2)%list)
    end.

(** The events a call of [Close] leaves in the trace. *)
Definition is_closing_event (e : Event) : bool :=
  match e with
  | Controllable_Close | Conn_Close | Println _ => true
  | _ => false
  end.

(** The result of converting a command registered under [alias] to a
    [protocol.Command] is kept when the alias is the name of the
    command. *)
Definition kept (entry : string * cmd_Command) : Prop :=
  Name entry.2 = entry.1.

#[global] Instance kept_dec entry : Decision (kept entry).
Proof. unfold kept. apply _. Defined.

(** A run that returns without panicking, keeps the display name of the
    session and leaves no closing event in the trace. *)
Definition quiet {A} (s : Session) (r : Outcome A * Session * list Event)
  : Prop :=
  (∃ a, outcome_of r = Ret a)
  ∧ DisplayName (session_of r) = DisplayName s
  ∧ Forall (λ e, is_closing_event e = false) (trace_of r).

End Session.

(** ** Concrete inputs used in the examples *)

(** A choice of externals: origins are strings, [yellow] joins its
    arguments with spaces, every address renders the same. *)
Definition sample_externals : Externals := {|
  CommandOrigin := string;
  yellow := λ words, foldr (λ w acc, w +:+ " " +:+ acc) "" words;
  IP_String := λ _, "127.0.0.1";
  CommandArgValid := 1048576;
  CommandArgTypeInt := 1;
  CommandArgTypeFloat := 2;
  CommandArgTypeValue := 3;
  CommandArgTypeTarget := 6;
  CommandArgTypeString := 29;
  CommandArgTypePosition := 37;
|}.

Definition sample_answers : @Answers sample_externals := {|
  c_Close_result := Some {| Error := "already closed" |};
  conn_Close_result := None;
  WritePacket_result := λ _, None;
|}.

Definition alice : @Session sample_externals := {|
  DisplayName := "Alice";
  controllableClosed := false;
  cmdOrigin := "origin-0" : @CommandOrigin sample_externals;
|}.

(** [type GameMode string] with [Type] and [Options] but no [Parse]:
    a [cmd.Enum] that is not a [cmd.Parameter]. *)
Definition gameMode_value : Value :=
  VDyn (DNamed "GameMode") {|
    has_Parse := false;
    Type_method := Some "GameMode";
    Options_method := Some ["survival"; "creative"] |}.

(** A value of a struct type without methods. *)
Definition plain_struct_value : Value := VDyn (DNamed "struct {}") no_methods.

(** A [cmd.Parameter] whose [Type] is neither "player" nor "target". *)
Definition custom_parameter_value : Value :=
  VDyn (DNamed "Coordinates") {|
    has_Parse := true;
    Type_method := Some "coordinates";
    Options_method := None |}.

(** A nil [*Target], where [Target] has [Parse] and [Type] with value
    receivers: it is a [cmd.Parameter], and a call of [Type] through it
    dereferences the nil pointer. *)
Definition nil_Target_pointer : Value :=
  VCalls "*Target" {|
    Parse_declared := true;
    Type_call := Some Panic;
    Options_call := None |}.

(** An enum that is a [cmd.Parameter] too and whose [Options] panics. *)
Definition enum_with_panicking_Options : Value :=
  VCalls "Biome" {|
    Parse_declared := true;
    Type_call := Some (Ret "Biome");
    Options_call := Some Panic |}.

(** A command registered under its name and under one alias. *)
Definition gamemode_command : cmd_Command := {|
  Name := "gamemode";
  Description := "Sets the game mode";
  Aliases := ["gm"; "gamemode"];
  Params := [[ {| ParamInfo_Name := "mode";
                  ParamInfo_Value := VDyn (DInt Kint 0) no_methods;
                  ParamInfo_Optional := false;
                  ParamInfo_Suffix := "" |};
               {| ParamInfo_Name := "silent";
                  ParamInfo_Value := VDyn (DBool false) no_methods;
                  ParamInfo_Optional := true;
                  ParamInfo_Suffix := "" |} ]];
|}.

Definition sample_commands : gmap string cmd_Command :=
  <["gm" := gamemode_command]> (<["gamemode" := gamemode_command]> ∅).

Definition sample_visited : list (string * cmd_Command) :=
  [("gm", gamemode_command); ("gamemode", gamemode_command)].

(** An output with 2^32 success messages and no error. *)
Definition huge_output : Output := {|
  Messages := replicate (Z.to_nat (2 ^ 32)) "ok";
  Errors := [];
|}.

Definition sample_output : Output := {|
  Messages := ["one"; "two"];
  Errors := [ {| Error := "three" |} ];
|}.

(** The command of the packet that [gamemode_command] is converted
    to under [sample_externals]. *)
Definition gamemode_descriptor : Command := {|
  Command_Name := "gamemode";
  Command_Description := "Sets the game mode";
  Command_Aliases := ["gm"; "gamemode"];
  Command_Overloads := [ {| CommandOverload_Parameters := [
    {| CommandParameter_Name := "mode";
       CommandParameter_Type := 1048577;
       CommandParameter_Optional := false;
       CommandParameter_CollapseEnumOptions := false;
       CommandParameter_Enum := CommandEnum_zero;
       CommandParameter_Suffix := "" |};
    {| CommandParameter_Name := "silent";
       CommandParameter_Type := 1048576;
       CommandParameter_Optional := true;
       CommandParameter_CollapseEnumOptions := true;
       CommandParameter_Enum :=
         {| EnumType := "bool";
            EnumOptions := ["true"; "1"; "false"; "0"] |};
       CommandParameter_Suffix := "" |} ] |} ] |}.

(** A session on which [Disconnect] has been called. *)
Definition bob_closed : @Session sample_externals := {|
  DisplayName := "Bob";
  controllableClosed := true;
  cmdOrigin := "origin-7" : @CommandOrigin sample_externals;
|}.

(** A turn in which [Disconnect] is called with "banned" before a
    packet of another kind arrives. *)
Definition banned_turn : @Turn sample_externals :=
  {| disconnects := ["banned"]; read := read_packet (POther 9) |}.

(** A turn in which [ReadPacket] fails. *)
Definition read_error_turn : @Turn sample_externals :=
  {| disconnects := []; read := read_error {| Error := "EOF" |} |}.

(** Two command requests, neither internal. *)
Definition sample_requests : list (@CommandRequest sample_externals) :=
  [ {| CommandRequest_CommandLine := "/gamemode creative";
       CommandRequest_CommandOrigin :=
         "origin-1" : @CommandOrigin sample_externals;
       CommandRequest_Internal := false |};
    {| CommandRequest_CommandLine := "/time set day";
       CommandRequest_CommandOrigin :=
         "origin-2" : @CommandOrigin sample_externals;
       CommandRequest_Internal := false |} ].

(** ** Further definitions: creating a session, and the pieces of
    [SendAvailableCommands] taken one command at a time *)

Section SessionMore.
Context `{Externals}.

(** [New]: the session it returns and what it prints. The display name
    is that of the connection; [zero] is the zero value of
    [protocol.CommandOrigin], which the composite literal leaves in
    [cmdOrigin]. *)
Definition New (displayName : string) (zero : CommandOrigin)
  : Session * list Event :=
  let s := {| DisplayName := displayName;
              controllableClosed := false;
              cmdOrigin := zero |} in
  let s := store_controllableClosed false s in
  (s, [Println (yellow [DisplayName s; "has joined the game"])]).

(** What the loop of [SendAvailableCommands] appends for a command it
    does not skip. *)
Definition protocolCommand (c : cmd_Command) : Outcome Command :=
  overloads ← commandOverloads (Params c);
  mret {|
    Command_Name := Name c;
    Command_Description := Description c;
    Command_Aliases := Aliases c;
    Command_Overloads := overloads |}.

(** The overload with the parameters given. *)
Definition overload_of (parameters : list CommandParameter)
  : CommandOverload :=
  {| CommandOverload_Parameters := parameters |}.

(** The value of a parameter is a Go bool. *)
Definition is_bool_value (i : Value) : bool :=
  match i with
  | VDyn (DBool _) _ => true
  | _ => false
  end.

(** The enum [valueToParamType] returns for a bool. *)
Definition bool_enum : CommandEnum :=
  {| EnumType := "bool"; EnumOptions := ["true"; "1"; "false"; "0"] |}.

(** A turn in which nothing happens but the arrival of a chat message
    under the name given. *)
Definition chat_turn (sourceName message : string) : Turn :=
  {| disconnects := [];
     read := read_packet (PText {|
       Text_TextType := TextTypeChat;
       Text_SourceName := sourceName;
       Text_Message := message |}) |}.

(** A turn in which nothing happens but the arrival of a command
    request. *)
Definition command_turn (pk : CommandRequest) : Turn :=
  {| disconnects := []; read := read_packet (PCommandRequest pk) |}.

(** Events that are calls on the controllable made for a packet. *)
Definition is_controllable_call (e : Event) : bool :=
  match e with
  | Chat _ | ExecuteCommand _ => true
  | _ => false
  end.

(** The packet [Disconnect] writes. *)
Definition Disconnect_packet (message : string) : Packet :=
  PDisconnect {|
    Disconnect_HideDisconnectionScreen := bool_decide (message = "");
    Disconnect_Message := message |}.

(** The session after the calls of [Disconnect] with the messages
    given. *)
Definition after_disconnects (messages : list string) (s : Session)
  : Session :=
  match messages with
  | [] => s
  | _ :: _ => store_controllableClosed true s
  end.

(** The events of one call of [Close] on the session. *)
Definition Close_events (s : Session) : list Event :=
  [Controllable_Close; Conn_Close;
   Println (yellow [DisplayName s; "has left the game"])].

(** The lines printed to the global chat during a trace. *)
Definition printed (t : list Event) : list string :=
  omap (λ e, match e with Println line => Some line | _ => None end) t.

(** The errors logged during a trace. *)
Definition logged_errors (t : list Event) : list ProtocolViolation :=
  omap (λ e, match e with Errorf err => Some err | _ => None end) t.

End SessionMore.

(** * Properties *)

Section Properties.
Context `{Externals}.

(** ** Loops that append *)

Lemma append_each_app {A B} (f : A → B) (l : list A) (acc : list B) :
  append_each f l acc = (acc ++ map f l)%list.
Proof.
  unfold append_each. revert acc.
  induction l as [|x l IH]; intros acc; simpl.
  - by rewrite app_nil_r.
  - rewrite IH. by rewrite <- app_assoc.
Qed.

(** ** [valueToParamType] *)

Lemma valueToParamType_int k n ms :
  valueToParamType (VDyn (DInt k n) ms) = Ret (CommandArgTypeInt, CommandEnum_zero).
Proof. reflexivity. Qed.

Lemma valueToParamType_float k bits ms :
  valueToParamType (VDyn (DFloat k bits) ms)
  = Ret (CommandArgTypeFloat, CommandEnum_zero).
Proof. reflexivity. Qed.

Lemma valueToParamType_string str ms :
  valueToParamType (VDyn (DString str) ms)
  = Ret (CommandArgTypeString, CommandEnum_zero).
Proof. reflexivity. Qed.

Lemma valueToParamType_bool b ms :
  valueToParamType (VDyn (DBool b) ms)
  = Ret (0, {| EnumType := "bool";
               EnumOptions := ["true"; "1"; "false"; "0"] |}).
Proof. reflexivity. Qed.

Lemma valueToParamType_vec3 v ms :
  valueToParamType (VDyn (DVec3 v) ms)
  = Ret (CommandArgTypePosition, CommandEnum_zero).
Proof. reflexivity. Qed.

(** Past the switch, [valueToParamType] in terms of what the calls of
    [Type] and [Options] do. *)
Lemma valueToParamType_past_switch i :
  past_switch i = true →
  valueToParamType i
  = match call_Type (assertParameter i).1 with
    | Panic => Panic
    | Ret ty =>
        if String.eqb ty "player" || String.eqb ty "target"
        then Ret (CommandArgTypeTarget, CommandEnum_zero)
        else if (assertEnum i).2
             then options ← call_Options (assertEnum i).1;
                  mret (0, {| EnumType := ty; EnumOptions := options |})
             else Ret (CommandArgTypeValue, CommandEnum_zero)
    end.
Proof.
  intros Hsw.
  assert (∀ calls : MethodCalls,
    method_calls i = Some calls →
    valueToParamType i
    = match call_Type (assertParameter i).1 with
      | Panic => Panic
      | Ret ty =>
          if String.eqb ty "player" || String.eqb ty "target"
          then Ret (CommandArgTypeTarget, CommandEnum_zero)
          else if (assertEnum i).2
               then options ← call_Options (assertEnum i).1;
                    mret (0, {| EnumType := ty; EnumOptions := options |})
               else Ret (CommandArgTypeValue, CommandEnum_zero)
      end) as Hcalls.
  { intros calls Hcalls.
    assert (valueToParamType i
            = (let '(param, ok) := assertParameter i in
               is_target ← and_then_or ok
                 (t ← call_Type param; mret (String.eqb t "player"))
                 (t ← call_Type param; mret (String.eqb t "target"));
               if (is_target : bool)
               then mret (CommandArgTypeTarget, CommandEnum_zero)
               else
                 let '(enum', ok') := assertEnum i in
                 if ok' then
                   ty ← call_Type enum';
                   opts ← call_Options enum';
                   mret (0, {| EnumType := ty; EnumOptions := opts |})
                 else mret (CommandArgTypeValue, CommandEnum_zero))) as ->.
    { destruct i as [|[] ms|type_name c]; try discriminate Hsw; reflexivity. }
    unfold assertParameter, assertEnum. rewrite Hcalls.
    destruct calls as [parse [[ty|]|] [[options|]|]]; destruct parse;
      simpl; unfold and_then_or; simpl;
      try reflexivity;
      destruct (String.eqb ty "player"); simpl; try reflexivity;
      destruct (String.eqb ty "target"); reflexivity. }
  destruct (method_calls i) as [calls|] eqn:Hm; [by apply (Hcalls calls)|].
  destruct i as [|d ms|type_name c]; try discriminate Hm. reflexivity.
Qed.

(** A failed assertion leaves the nil interface. *)
Lemma assertParameter_false i :
  (assertParameter i).2 = false → (assertParameter i).1 = None.
Proof.
  unfold assertParameter.
  destruct (method_calls i) as [calls|]; [|done].
  by destruct (Parse_declared calls && bool_decide (is_Some (Type_call calls))).
Qed.

(** Past the switch, a value that is not a [cmd.Parameter] makes the
    second operand of [||] call [Type] on a nil interface. *)
Lemma valueToParamType_not_parameter i :
  past_switch i = true →
  (assertParameter i).2 = false →
  valueToParamType i = Panic.
Proof.
  intros Hsw Hnot.
  rewrite (valueToParamType_past_switch i Hsw).
  by rewrite (assertParameter_false i Hnot).
Qed.

(** X19. [valueToParamType] panics exactly on the values the switch
    does not list for which the assertion to [cmd.Parameter] fails, or
    the call of [Type] panics, or [Type] returns neither "player" nor
    "target", the value is a [cmd.Enum] and the call of [Options]
    panics; on every other value it returns. *)
Lemma valueToParamType_panic_iff i :
  valueToParamType i = Panic
  ↔ past_switch i = true
    ∧ ((assertParameter i).2 = false
       ∨ call_Type (assertParameter i).1 = Panic
       ∨ ∃ ty, call_Type (assertParameter i).1 = Ret ty
               ∧ String.eqb ty "player" || String.eqb ty "target" = false
               ∧ (assertEnum i).2 = true
               ∧ call_Options (assertEnum i).1 = Panic).
Proof.
  destruct (past_switch i) eqn:Hsw.
  - rewrite (valueToParamType_past_switch i Hsw). split.
    + intros Hp. split; [done|].
      destruct (call_Type (assertParameter i).1) as [ty|]; [|by right; left].
      right; right. exists ty. split; [done|].
      destruct (String.eqb ty "player" || String.eqb ty "target");
        [done|].
      split; [done|].
      destruct ((assertEnum i).2); [|done]. split; [done|].
      by destruct (call_Options (assertEnum i).1).
    + intros [_ [Hnot|[Hty|(ty & Hty & Htarget & Henum & Hoptions)]]].
      * by rewrite (assertParameter_false i Hnot).
      * by rewrite Hty.
      * by rewrite Hty, Htarget, Henum, Hoptions.
  - split; [|by intros [? _]].
    destruct i as [|[] ms|type_name c]; try discriminate Hsw; discriminate.
Qed.

(** C1. The mapping is not total: on every value of a type the switch
    does not list and that has no [Parse] method, so is no
    [cmd.Parameter], whatever [Type] and [Options] methods it has, the
    test for the target category calls [Type] on a nil interface and the
    function panics; an enum such as [gameMode_value] is one of them. *)
Theorem valueToParamType_panics_without_Parse (type_name : string)
    (type_method : option string) (options_method : option (list string)) :
  valueToParamType (VDyn (DNamed type_name) {|
    has_Parse := false;
    Type_method := type_method;
    Options_method := options_method |}) = Panic
  ∧ valueToParamType gameMode_value = Panic
  ∧ valueToParamType VNil = Panic.
Proof.
  split; [|split; reflexivity].
  apply valueToParamType_not_parameter; reflexivity.
Qed.

(** C8. The integer, floating, string, boolean and vector cases return
    what the type switch says, whatever methods the value has; a value
    of a struct type without methods does not reach
    [CommandArgTypeValue], the function panics on it. *)
Theorem valueToParamType_cases (ki : IntKind) (n : Z) (kf : FloatKind)
    (bits : Z) (str : string) (b : bool) (v : Vec3) (ms : Methods)
    (type_name : string) :
  valueToParamType (VDyn (DInt ki n) ms)
    = Ret (CommandArgTypeInt, CommandEnum_zero)
  ∧ valueToParamType (VDyn (DFloat kf bits) ms)
    = Ret (CommandArgTypeFloat, CommandEnum_zero)
  ∧ valueToParamType (VDyn (DString str) ms)
    = Ret (CommandArgTypeString, CommandEnum_zero)
  ∧ valueToParamType (VDyn (DBool b) ms)
    = Ret (0, {| EnumType := "bool";
                 EnumOptions := ["true"; "1"; "false"; "0"] |})
  ∧ valueToParamType (VDyn (DVec3 v) ms)
    = Ret (CommandArgTypePosition, CommandEnum_zero)
  ∧ valueToParamType (VDyn (DNamed type_name) no_methods) = Panic.
Proof. repeat split; reflexivity. Qed.

(** ** Text senders *)

(** C2. [SendTip] writes a text packet of type popup, the packet
    [SendPopup] writes for the same message, and not one of type tip. *)
Theorem SendTip_writes_popup (message : string) (w : Answers) (s : Session) :
  SendTip message w s
    = (Ret (), s, [WritePacket (PText {|
         Text_TextType := TextTypePopup;
         Text_SourceName := "";
         Text_Message := message |})])
  ∧ SendTip message w s = SendPopup message w s
  ∧ spec_TextType (call_SendTip message) = Some TextTypeTip
  ∧ TextTypePopup ≠ TextTypeTip.
Proof. repeat split; try reflexivity. discriminate. Qed.

(** The other four text senders write the type they are named after. *)
Lemma text_senders_other_than_SendTip (call : Outbound) (ty : TextType)
    (w : Answers) (s : Session) :
  spec_TextType call = Some ty →
  ty ≠ TextTypeTip →
  ∃ message,
    send call w s
    = (Ret (), s, [WritePacket (PText {|
         Text_TextType := ty;
         Text_SourceName := "";
         Text_Message := message |})]).
Proof.
  intros Hty Hne.
  destruct call; simpl in Hty; inversion Hty; subst;
    try congruence; eexists; reflexivity.
Qed.

(** ** Inbound handlers *)

(** C3. [handleText] calls [Chat] with the message, once, writes no
    packet and returns nil when the text type is chat and the source
    name is the display name; in every other case it returns an error
    and does nothing else. *)
Theorem handleText_forwards_iff (pk : Text) (w : Answers) (s : Session) :
  (Text_TextType pk = TextTypeChat
   ∧ Text_SourceName pk = DisplayName s
   ∧ handleText pk w s = (Ret None, s, [Chat (Text_Message pk)]))
  ∨ (¬ (Text_TextType pk = TextTypeChat
        ∧ Text_SourceName pk = DisplayName s)
     ∧ ∃ err : ProtocolViolation,
         handleText pk w s = (Ret (Some err), s, [])).
Proof.
  unfold handleText, mbind, M_bind, get_session; simpl.
  repeat case_bool_decide.
  - right. split; [tauto|]. eexists; reflexivity.
  - right. split; [tauto|]. eexists; reflexivity.
  - left. split; [by destruct (decide (Text_TextType pk = TextTypeChat))|].
    split; [by destruct (decide (Text_SourceName pk = DisplayName s))|].
    reflexivity.
Qed.

(** C4. [handleCommandRequest] returns an error and does nothing else
    when [Internal] is set; otherwise it stores the origin of the
    request in [cmdOrigin], calls [ExecuteCommand] with the command
    line of the request, and returns nil. *)
Theorem handleCommandRequest_internal_iff (pk : CommandRequest)
    (w : Answers) (s : Session) :
  (CommandRequest_Internal pk = true
   ∧ ∃ err : ProtocolViolation,
       handleCommandRequest pk w s = (Ret (Some err), s, []))
  ∨ (CommandRequest_Internal pk = false
     ∧ handleCommandRequest pk w s
       = (Ret None,
          {| DisplayName := DisplayName s;
             controllableClosed := controllableClosed s;
             cmdOrigin := CommandRequest_CommandOrigin pk |},
          [ExecuteCommand (CommandRequest_CommandLine pk)])).
Proof.
  unfold handleCommandRequest.
  destruct (CommandRequest_Internal pk).
  - left. split; [done|]. eexists; reflexivity.
  - right. split; [done|]. reflexivity.
Qed.

(** ** Command output *)

(** The packet [SendCommandOutput] writes, with its two loops
    unfolded. *)
Lemma SendCommandOutput_run (output : Output) (w : Answers) (s : Session) :
  SendCommandOutput output w s
  = (Ret (), s, [WritePacket (PCommandOutput {|
       CommandOutput_CommandOrigin := cmdOrigin s;
       CommandOutput_OutputType := 3;
       CommandOutput_SuccessCount := uint32 (MessageCount output);
       CommandOutput_OutputMessages :=
         (map (λ message, {| CommandOutputMessage_Success := true;
                             CommandOutputMessage_Message := message |})
            (Messages output)
          ++ map (λ err, {| CommandOutputMessage_Success := false;
                            CommandOutputMessage_Message := Error err |})
               (Errors output))%list |})]).
Proof.
  unfold SendCommandOutput.
  rewrite !append_each_app. rewrite app_nil_l. reflexivity.
Qed.

(** C5. [SendCommandOutput] writes one command output packet: its
    messages are the success messages in order, marked successful,
    followed by the texts of the errors in order, marked unsuccessful,
    so n+m of them; it carries the [cmdOrigin] of the session and the
    output type 3; its success count is n converted to uint32, that is
    n modulo 2^32, which is n when n is below 2^32. *)
Theorem SendCommandOutput_packet (output : Output) (w : Answers)
    (s : Session) :
  let n := length (Messages output) in
  let m := length (Errors output) in
  ∃ pk : CommandOutput,
    SendCommandOutput output w s
      = (Ret (), s, [WritePacket (PCommandOutput pk)])
    ∧ CommandOutput_OutputMessages pk
      = (map (λ message, {| CommandOutputMessage_Success := true;
                            CommandOutputMessage_Message := message |})
           (Messages output)
         ++ map (λ err, {| CommandOutputMessage_Success := false;
                           CommandOutputMessage_Message := Error err |})
              (Errors output))%list
    ∧ length (CommandOutput_OutputMessages pk) = (n + m)%nat
    ∧ CommandOutput_SuccessCount pk = Z.of_nat n mod 2 ^ 32
    ∧ (Z.of_nat n < 2 ^ 32 → CommandOutput_SuccessCount pk = Z.of_nat n)
    ∧ CommandOutput_CommandOrigin pk = cmdOrigin s
    ∧ CommandOutput_OutputType pk = 3.
Proof.
  intros n m.
  eexists. split; [apply SendCommandOutput_run|].
  cbv beta iota delta [CommandOutput_OutputMessages CommandOutput_SuccessCount
                       CommandOutput_CommandOrigin CommandOutput_OutputType].
  split; [reflexivity|].
  split; [by rewrite length_app, !length_map|].
  split; [reflexivity|].
  split; [|done].
  intros Hn. unfold uint32, MessageCount. fold n.
  apply Z.mod_small. lia.
Qed.

(** ** Disconnect and transfer *)

(** C6. [Disconnect] writes one disconnect packet that carries the
    message and hides the disconnection screen exactly when the message
    is empty, and stores true in [controllableClosed]; every other
    sender leaves the session as it was. *)
Theorem Disconnect_closes (message : string) (w : Answers) (s : Session) :
  (∃ hide : bool,
     Disconnect message w s
       = (Ret (),
          {| DisplayName := DisplayName s;
             controllableClosed := true;
             cmdOrigin := cmdOrigin s |},
          [WritePacket (PDisconnect {|
             Disconnect_HideDisconnectionScreen := hide;
             Disconnect_Message := message |})])
     ∧ (hide = true ↔ message = ""))
  ∧ ∀ call : Outbound,
      session_of (send call w s)
      = if is_Disconnect call
        then {| DisplayName := DisplayName s;
                controllableClosed := true;
                cmdOrigin := cmdOrigin s |}
        else s.
Proof.
  split.
  - exists (bool_decide (message = "")). split; [reflexivity|].
    apply bool_decide_eq_true.
  - intros call. destruct call as [| | | | | | | | | | | | |output|visited];
      try reflexivity.
    + by destruct output.
    + simpl. unfold SendAvailableCommands, lift, mbind, M_bind.
      destruct (range _ _ _ _); reflexivity.
Qed.

(** C10. [Transfer] writes one transfer packet whose address is the
    text of the IP and whose port is the port modulo 2^16, a value
    below 2^16, for every integer port; it returns without an error. *)
Theorem Transfer_port_wraps (ip : list Byte.byte) (port : Z) (w : Answers)
    (s : Session) :
  Transfer ip port w s
    = (Ret (), s, [WritePacket (PTransfer {|
         Transfer_Address := IP_String ip;
         Transfer_Port := port mod 2 ^ 16 |})])
  ∧ 0 ≤ port mod 2 ^ 16 < 2 ^ 16.
Proof.
  split; [reflexivity|]. apply Z.mod_pos_bound. lia.
Qed.

(** ** Closing and the packet loop *)

Lemma quiet_ret {A} (a : A) (w : Answers) (s : Session) : quiet s ((mret a : M A) w s).
Proof. repeat split; eauto. Qed.

Lemma quiet_bind {A B} (m : M A) (f : A → M B) (w : Answers) (s : Session) :
  quiet s (m w s) →
  (∀ a s1, DisplayName s1 = DisplayName s → quiet s1 (f a w s1)) →
  quiet s ((m ≫= f) w s).
Proof.
  unfold quiet, outcome_of, session_of, trace_of, mbind, M_bind.
  intros ([a Ha] & Hn & Ht) Hf.
  destruct (m w s) as [[r s1] t1]. simpl in *. subst r.
  specialize (Hf a s1 Hn).
  destruct (f a w s1) as [[r2 s2] t2].
  destruct Hf as ([b Hb] & Hn2 & Ht2). simpl in *.
  repeat split; simpl.
  - eauto.
  - congruence.
  - apply Forall_app; auto.
Qed.

Lemma quiet_Disconnect message w s : quiet s (Disconnect message w s).
Proof. repeat split; eauto. simpl. repeat constructor. Qed.

Lemma quiet_mapM_Disconnect messages w s :
  quiet s (mapM Disconnect messages w s).
Proof.
  revert s. induction messages as [|message messages IH]; intros s.
  - apply quiet_ret.
  - simpl. apply quiet_bind; [apply quiet_Disconnect|].
    intros a s1 Hs1.
    apply quiet_bind; [apply IH|].
    intros. apply quiet_ret.
Qed.

Lemma quiet_handlePacket pk w s : quiet s (handlePacket pk w s).
Proof.
  destruct pk; simpl;
    try (repeat split; eauto; repeat constructor; fail).
  - unfold handleText, mbind, M_bind, get_session; simpl.
    repeat case_bool_decide; repeat split; eauto; repeat constructor.
  - unfold handleCommandRequest.
    destruct (CommandRequest_Internal pk);
      repeat split; eauto; repeat constructor.
Qed.

Lemma quiet_packet_loop turns w s : quiet s (packet_loop turns w s).
Proof.
  revert s. induction turns as [|turn turns IH]; intros s.
  - apply quiet_ret.
  - simpl. apply quiet_bind; [apply quiet_mapM_Disconnect|].
    intros _ s1 Hs1.
    destruct (read turn) as [pk|err]; [|apply quiet_ret].
    apply quiet_bind; [repeat split; eauto|].
    intros s1' s2 Hs2.
    destruct (controllableClosed s1'); [apply quiet_ret|].
    apply quiet_bind; [apply quiet_handlePacket|].
    intros [err|] s3 Hs3.
    + apply quiet_bind; [repeat split; eauto; repeat constructor|].
      intros. apply quiet_ret.
    + apply IH.
Qed.

(** ** The available commands *)

(** The names of the commands in the packet are the aliases of the
    entries kept, in the order visited. *)
Lemma range_availableCommand_names visited i acc cmds :
  range visited i (λ _, availableCommand) acc = Ret cmds →
  Command_Name <$> cmds
  = ((Command_Name <$> acc) ++ (filter kept visited).*1)%list.
Proof.
  revert i acc.
  induction visited as [|[alias c] visited IH]; intros i acc Hr; simpl in Hr.
  - inversion Hr; subst. by rewrite app_nil_r.
  - unfold mbind, Outcome_bind in Hr.
    case_bool_decide as Hname.
    + apply IH in Hr. rewrite Hr.
      rewrite filter_cons_False; [done|]. unfold kept; simpl. congruence.
    + destruct (commandOverloads (Params c)) as [overloads|];
        simpl in Hr; [|discriminate].
      apply IH in Hr. rewrite Hr.
      assert (Name c = alias) as Hkept
        by (destruct (decide (Name c = alias)); [done|contradiction]).
      rewrite filter_cons_True by exact Hkept.
      rewrite fmap_app, fmap_cons. simpl.
      rewrite Hkept. by rewrite <- app_assoc.
Qed.

(** Visiting a map meets no alias twice. *)
Lemma ranges_over_NoDup (commands : gmap string cmd_Command) visited :
  ranges_over commands visited → NoDup visited.*1.
Proof.
  unfold ranges_over. intros ->. apply NoDup_fst_map_to_list.
Qed.

Lemma ranges_over_elem_of (commands : gmap string cmd_Command) visited
    alias c :
  ranges_over commands visited →
  (alias, c) ∈ visited ↔ commands !! alias = Some c.
Proof.
  unfold ranges_over. intros ->. apply elem_of_map_to_list.
Qed.

(** An alias is among the kept ones exactly when the command registered
    under it has it as its name. *)
Lemma kept_alias_iff (commands : gmap string cmd_Command) visited alias c :
  ranges_over commands visited →
  commands !! alias = Some c →
  alias ∈ (filter kept visited).*1 ↔ Name c = alias.
Proof.
  intros Hv Hc. rewrite list_elem_of_fmap. split.
  - intros ([alias' c'] & -> & [Hk Hin]%list_elem_of_filter).
    simpl in *. unfold kept in Hk. simpl in Hk.
    apply (ranges_over_elem_of commands) in Hin; [|done].
    congruence.
  - intros Hname. exists (alias, c). split; [done|].
    apply list_elem_of_filter. split; [exact Hname|].
    by apply (ranges_over_elem_of commands).
Qed.

(** C7. Whatever order the map of commands is visited in, a packet
    that [SendAvailableCommands] writes is the only one it writes and
    holds one command per entry whose alias is the name of its command,
    in the order visited, and none for any other entry: no two of its
    commands have the same name, an alias of the map is the name of one
    of them exactly when the command registered under it has that
    name, and of two aliases registered for commands of the same name
    at most one is. *)
Theorem SendAvailableCommands_skips_aliases
    (commands : gmap string cmd_Command)
    (visited : list (string * cmd_Command)) (w : Answers) (s : Session)
    (pk : Packet) :
  ranges_over commands visited →
  pk ∈ written (trace_of (SendAvailableCommands visited w s)) →
  ∃ cmds : list Command,
    pk = PAvailableCommands {| AvailableCommands_Commands := cmds |}
    ∧ SendAvailableCommands visited w s = (Ret (), s, [WritePacket pk])
    ∧ Command_Name <$> cmds = (filter kept visited).*1
    ∧ NoDup (Command_Name <$> cmds)
    ∧ (∀ alias c, commands !! alias = Some c →
         alias ∈ Command_Name <$> cmds ↔ Name c = alias)
    ∧ (∀ alias1 alias2 c1 c2,
         commands !! alias1 = Some c1 →
         commands !! alias2 = Some c2 →
         Name c1 = Name c2 →
         alias1 ∈ Command_Name <$> cmds →
         alias2 ∈ Command_Name <$> cmds →
         alias1 = alias2).
Proof.
  intros Hv Hpk.
  unfold SendAvailableCommands, lift, mbind, M_bind in *.
  destruct (range visited 0 (λ _, availableCommand) []) as [cmds|] eqn:Hr;
    simpl in Hpk; [|by apply elem_of_nil in Hpk].
  apply list_elem_of_singleton in Hpk. subst pk.
  apply range_availableCommand_names in Hr. simpl in Hr.
  assert (∀ alias c, commands !! alias = Some c →
            alias ∈ Command_Name <$> cmds ↔ Name c = alias) as Hiff.
  { intros alias c Hc. rewrite Hr. by apply (kept_alias_iff commands). }
  exists cmds. split; [reflexivity|]. split; [reflexivity|].
  split; [exact Hr|]. split; [|split; [exact Hiff|]].
  - rewrite Hr. eapply sublist_NoDup.
    + by apply (ranges_over_NoDup commands).
    + apply fmap_sublist, sublist_filter.
  - intros alias1 alias2 c1 c2 H1 H2 Hsame Hin1 Hin2.
    apply (Hiff _ _ H1) in Hin1. apply (Hiff _ _ H2) in Hin2. congruence.
Qed.

(** *** When the packet is written *)

Lemma append_parameter_returns i p overloads :
  (i < length overloads)%nat →
  ∃ overloads', append_parameter i p overloads = Ret overloads'
                ∧ length overloads' = length overloads.
Proof.
  intros Hi. unfold append_parameter.
  destruct (lookup_lt_is_Some_2 overloads i Hi) as [o ->].
  eexists. split; [reflexivity|]. apply length_insert.
Qed.

Lemma parameters_loop_returns i params j overloads :
  (i < length overloads)%nat →
  Forall (λ paramInfo,
    valueToParamType (ParamInfo_Value paramInfo) ≠ Panic) params →
  ∃ overloads',
    range params j (λ _ paramInfo overloads,
      p ← commandParameter paramInfo;
      append_parameter i p overloads) overloads = Ret overloads'
    ∧ length overloads' = length overloads.
Proof.
  intros Hi Hok. revert j overloads Hi.
  induction Hok as [|paramInfo params Hp Hok IH]; intros j overloads Hi.
  - by exists overloads.
  - simpl. unfold commandParameter.
    destruct (valueToParamType (ParamInfo_Value paramInfo)) as [[t enum]|];
      [|done].
    simpl.
    edestruct (append_parameter_returns i) as (overloads1 & -> & Hlen1);
      [exact Hi|].
    simpl.
    destruct (IH (S j) overloads1) as (overloads2 & Hr & Hlen2); [lia|].
    exists overloads2. split; [exact Hr|]. lia.
Qed.

Lemma overloads_loop_returns params i overloads :
  (i + length params ≤ length overloads)%nat →
  Forall (Forall (λ paramInfo,
    valueToParamType (ParamInfo_Value paramInfo) ≠ Panic)) params →
  ∃ overloads',
    range params i (λ i params overloads,
      range params 0 (λ _ paramInfo overloads,
        p ← commandParameter paramInfo;
        append_parameter i p overloads) overloads) overloads
    = Ret overloads'.
Proof.
  intros Hlen Hok. revert i overloads Hlen.
  induction Hok as [|ps params Hps Hok IH]; intros i overloads Hlen.
  - by exists overloads.
  - simpl in *.
    destruct (parameters_loop_returns i ps 0%nat overloads)
      as (overloads1 & -> & Hlen1); [lia|exact Hps|].
    simpl. apply IH. lia.
Qed.

Lemma commandOverloads_returns params :
  Forall (Forall (λ paramInfo,
    valueToParamType (ParamInfo_Value paramInfo) ≠ Panic)) params →
  ∃ overloads, commandOverloads params = Ret overloads.
Proof.
  intros Hok. unfold commandOverloads.
  apply overloads_loop_returns; [|exact Hok].
  rewrite length_replicate. lia.
Qed.

(** [SendAvailableCommands] writes its packet when [valueToParamType]
    returns on the value of every parameter of every command kept. *)
Lemma SendAvailableCommands_writes (visited : list (string * cmd_Command))
    (w : Answers) (s : Session) :
  Forall (λ entry, kept entry →
    Forall (Forall (λ paramInfo,
      valueToParamType (ParamInfo_Value paramInfo) ≠ Panic))
      (Params entry.2)) visited →
  ∃ pk : AvailableCommands,
    SendAvailableCommands visited w s
    = (Ret (), s, [WritePacket (PAvailableCommands pk)]).
Proof.
  intros Hok.
  assert (∀ i acc, ∃ cmds,
            range visited i (λ _, availableCommand) acc = Ret cmds) as Hr.
  { induction Hok as [|[alias c] visited Hc Hok IH]; intros i acc.
    - by exists acc.
    - simpl. case_bool_decide as Hname; simpl; [apply IH|].
      destruct (commandOverloads_returns (Params c)) as [overloads ->].
      + apply Hc. unfold kept. simpl.
        by destruct (decide (Name c = alias)).
      + simpl. apply IH. }
  destruct (Hr 0%nat []) as [cmds Hcmds].
  unfold SendAvailableCommands, lift, mbind, M_bind. rewrite Hcmds.
  eexists; reflexivity.
Qed.

(** It panics, and writes nothing, when a command kept has a parameter
    whose value is of a type without methods. *)
Lemma SendAvailableCommands_panics alias c params1 paramInfo params2 rest
    type_name (w : Answers) (s : Session) :
  Name c = alias →
  Params c = (paramInfo :: params1) :: params2 →
  ParamInfo_Value paramInfo = VDyn (DNamed type_name) no_methods →
  SendAvailableCommands ((alias, c) :: rest) w s = (Panic, s, []).
Proof.
  intros Hname Hparams Hvalue.
  unfold SendAvailableCommands, lift, mbind, M_bind. simpl.
  rewrite bool_decide_false by (intros Hne; by apply Hne).
  unfold commandOverloads. rewrite Hparams. simpl.
  unfold commandParameter. rewrite Hvalue. reflexivity.
Qed.

End Properties.

(** * The properties on concrete inputs *)

(** C5, as first stated, fails: with 2^32 success messages the success
    count of the packet is not the number of success messages. *)
Lemma SendCommandOutput_success_count_not_n :
  ∃ pk : @CommandOutput sample_externals,
    SendCommandOutput huge_output sample_answers alice
      = (Ret (), alice, [WritePacket (PCommandOutput pk)])
    ∧ length (Messages huge_output) = Z.to_nat (2 ^ 32)
    ∧ CommandOutput_SuccessCount pk = 0
    ∧ CommandOutput_SuccessCount pk
      ≠ Z.of_nat (length (Messages huge_output)).
Proof.
  eexists. split; [apply SendCommandOutput_run|].
  cbv beta iota delta [CommandOutput_SuccessCount].
  unfold uint32, MessageCount, huge_output.
  cbv beta iota delta [Messages].
  rewrite length_replicate.
  rewrite Z2Nat.id by (apply Z.pow_nonneg; lia).
  rewrite Z.mod_same by (apply Z.pow_nonzero; lia).
  split; [reflexivity|]. split; [reflexivity|].
  apply Z.lt_neq. apply Z.pow_pos_nonneg; lia.
Qed.

(** C5 on an output with two success messages and one error. *)
Lemma SendCommandOutput_packet_witness :
  ∃ pk : @CommandOutput sample_externals,
    SendCommandOutput sample_output sample_answers alice
      = (Ret (), alice, [WritePacket (PCommandOutput pk)])
    ∧ CommandOutput_OutputMessages pk
      = [ {| CommandOutputMessage_Success := true;
             CommandOutputMessage_Message := "one" |};
          {| CommandOutputMessage_Success := true;
             CommandOutputMessage_Message := "two" |};
          {| CommandOutputMessage_Success := false;
             CommandOutputMessage_Message := "three" |} ]
    ∧ CommandOutput_SuccessCount pk = 2.
Proof.
  destruct (SendCommandOutput_packet sample_output sample_answers alice)
    as (pk & Hrun & Hmessages & _ & _ & Hsmall & _).
  exists pk. split; [exact Hrun|]. split; [exact Hmessages|].
  apply Hsmall. simpl. lia.
Defined.

(** C7 on a command registered under its name and under an alias. *)
Lemma SendAvailableCommands_skips_aliases_witness :
  let pk :=
    PAvailableCommands (H := sample_externals) {|
      AvailableCommands_Commands := [ {|
        Command_Name := "gamemode";
        Command_Description := "Sets the game mode";
        Command_Aliases := ["gm"; "gamemode"];
        Command_Overloads := [ {| CommandOverload_Parameters := [
          {| CommandParameter_Name := "mode";
             CommandParameter_Type := 1048577;
             CommandParameter_Optional := false;
             CommandParameter_CollapseEnumOptions := false;
             CommandParameter_Enum := CommandEnum_zero;
             CommandParameter_Suffix := "" |};
          {| CommandParameter_Name := "silent";
             CommandParameter_Type := 1048576;
             CommandParameter_Optional := true;
             CommandParameter_CollapseEnumOptions := true;
             CommandParameter_Enum :=
               {| EnumType := "bool";
                  EnumOptions := ["true"; "1"; "false"; "0"] |};
             CommandParameter_Suffix := "" |} ] |} ] |} ] |} in
  ranges_over sample_commands sample_visited
  ∧ pk ∈ written (trace_of
           (SendAvailableCommands sample_visited sample_answers alice))
  ∧ ∃ cmds : list Command,
      pk = PAvailableCommands {| AvailableCommands_Commands := cmds |}
      ∧ Command_Name <$> cmds = ["gamemode"].
Proof.
  intros pk.
  assert (ranges_over sample_commands sample_visited) as Hv.
  { unfold ranges_over. vm_compute. reflexivity. }
  assert (pk ∈ written (trace_of
            (SendAvailableCommands sample_visited sample_answers alice)))
    as Hpk.
  { vm_compute. apply list_elem_of_here. }
  split; [exact Hv|]. split; [exact Hpk|].
  destruct (SendAvailableCommands_skips_aliases
              sample_commands sample_visited sample_answers alice pk Hv Hpk)
    as (cmds & Heq & _ & Hnames & _).
  exists cmds. split; [exact Heq|]. exact Hnames.
Defined.

(** ** Runs of the packet loop, one for each way it goes on or returns *)

(** A chat message from Alice is passed on and the loop reads on. *)
Example loop_chat_from_alice :
  handlePackets
    [ {| disconnects := [];
         read := read_packet (PText {|
           Text_TextType := TextTypeChat;
           Text_SourceName := "Alice";
           Text_Message := "hi" |}) |} ]
    sample_answers alice
  = (Ret None, alice, [Chat "hi"]).
Proof. reflexivity. Qed.

(** A packet of another kind is logged and the loop reads on. *)
Example loop_unhandled_packet :
  handlePackets [ {| disconnects := []; read := read_packet (POther 44) |} ]
    sample_answers alice
  = (Ret None, alice, [Debugf (POther 44)]).
Proof. reflexivity. Qed.

(** A command request with [Internal] set: no [ExecuteCommand], the
    error is logged and the session closed. *)
Example loop_internal_command_request :
  handlePackets
    [ {| disconnects := [];
         read := read_packet (PCommandRequest {|
           CommandRequest_CommandLine := "/give Alice diamond";
           CommandRequest_CommandOrigin :=
             "origin-1" : @CommandOrigin sample_externals;
           CommandRequest_Internal := true |}) |} ]
    sample_answers alice
  = (Ret (Some (exit_handler_error internal_field_set)), alice,
     [Errorf internal_field_set; Controllable_Close; Conn_Close;
      Println "Alice has left the game "]).
Proof. reflexivity. Qed.

(** A chat message under another name, after one that was accepted. *)
Example loop_spoofed_source_name :
  handlePackets
    [ {| disconnects := [];
         read := read_packet (PText {|
           Text_TextType := TextTypeChat;
           Text_SourceName := "Alice";
           Text_Message := "hi" |}) |};
      {| disconnects := [];
         read := read_packet (PText {|
           Text_TextType := TextTypeChat;
           Text_SourceName := "Bob";
           Text_Message := "hello" |}) |} ]
    sample_answers alice
  = (Ret (Some (exit_handler_error source_name_not_display_name)), alice,
     [Chat "hi"; Errorf source_name_not_display_name;
      Controllable_Close; Conn_Close; Println "Alice has left the game "]).
Proof. reflexivity. Qed.

(** A read error. *)
Example loop_read_error :
  handlePackets
    [ {| disconnects := []; read := read_error {| Error := "EOF" |} |} ]
    sample_answers alice
  = (Ret (Some (exit_read_error {| Error := "EOF" |})), alice,
     [Controllable_Close; Conn_Close; Println "Alice has left the game "]).
Proof. reflexivity. Qed.

(** [Disconnect "banned"] called while the loop waits for a packet: the
    packet that arrives next is not handled. *)
Example loop_disconnected_meanwhile :
  handlePackets
    [ {| disconnects := ["banned"];
         read := read_packet (PText {|
           Text_TextType := TextTypeChat;
           Text_SourceName := "Alice";
           Text_Message := "hi" |}) |} ]
    sample_answers alice
  = (Ret (Some exit_controllable_closed),
     {| DisplayName := "Alice";
        controllableClosed := true;
        cmdOrigin := "origin-0" : @CommandOrigin sample_externals |},
     [WritePacket (PDisconnect {|
        Disconnect_HideDisconnectionScreen := false;
        Disconnect_Message := "banned" |});
      Controllable_Close; Conn_Close; Println "Alice has left the game "]).
Proof. reflexivity. Qed.

(** ** [valueToParamType] past the type switch *)

(** A [cmd.Parameter] of another type than "player" and "target" is a
    [CommandArgTypeValue]. *)
Example valueToParamType_custom_parameter :
  valueToParamType (H := sample_externals) custom_parameter_value
  = Ret (3, CommandEnum_zero).
Proof. reflexivity. Qed.

(** A [cmd.Parameter] of type "target". *)
Example valueToParamType_target :
  valueToParamType (H := sample_externals)
    (VDyn (DNamed "Target") {|
       has_Parse := true;
       Type_method := Some "target";
       Options_method := None |})
  = Ret (6, CommandEnum_zero).
Proof. reflexivity. Qed.

(** An enum is mapped to its options only when it is a [cmd.Parameter]
    as well. *)
Example valueToParamType_enum_with_Parse :
  valueToParamType (H := sample_externals)
    (VDyn (DNamed "GameMode") {|
       has_Parse := true;
       Type_method := Some "GameMode";
       Options_method := Some ["survival"; "creative"] |})
  = Ret (0, {| EnumType := "GameMode";
               EnumOptions := ["survival"; "creative"] |}).
Proof. reflexivity. Qed.

(** The nil interface value. *)
Example valueToParamType_nil :
  valueToParamType (H := sample_externals) VNil = Panic.
Proof. reflexivity. Qed.

(** A command with a parameter of a struct type stops the whole
    packet. *)
Example SendAvailableCommands_plain_struct :
  SendAvailableCommands
    [("tp", {| Name := "tp";
               Description := "Teleports";
               Aliases := [];
               Params := [[ {| ParamInfo_Name := "destination";
                               ParamInfo_Value := plain_struct_value;
                               ParamInfo_Optional := false;
                               ParamInfo_Suffix := "" |} ]] |})]
    sample_answers alice
  = (Panic, alice, []).
Proof. reflexivity. Qed.

(** * Further properties *)

Section MoreProperties.
Context `{Externals}.

(** ** [mapM] on computations that may panic *)

Lemma Outcome_bind_Ret {A B} (a : A) (f : A → Outcome B) :
  (Ret a ≫= f) = f a.
Proof. reflexivity. Qed.

Lemma Outcome_bind_Panic {A B} (f : A → Outcome B) :
  (Panic ≫= f) = Panic.
Proof. reflexivity. Qed.

Lemma Outcome_mret {A} (a : A) : mret a = Ret a.
Proof. reflexivity. Qed.

(** Push returned values through binds. *)
Ltac outcome_steps :=
  repeat (rewrite ?Outcome_bind_Ret, ?Outcome_bind_Panic, ?Outcome_mret;
          cbv beta).

Lemma mapM_Outcome_cons {A B} (f : A → Outcome B) x l :
  mapM f (x :: l)
  = match f x with
    | Ret y => match mapM f l with Ret k => Ret (y :: k) | Panic => Panic end
    | Panic => Panic
    end.
Proof. reflexivity. Qed.

Lemma mapM_Ret_Forall2 {A B} (f : A → Outcome B) l k :
  mapM f l = Ret k ↔ Forall2 (λ x y, f x = Ret y) l k.
Proof.
  revert k. induction l as [|x l IH]; intros k.
  - split.
    + intros [= <-]. constructor.
    + intros Hk. by inversion Hk.
  - rewrite mapM_Outcome_cons. split.
    + destruct (f x) as [y|] eqn:Hy; [|done].
      destruct (mapM f l) as [k'|]; [|done].
      intros [= <-]. constructor; [done|]. by apply IH.
    + intros Hk. inversion Hk as [|? y ? k' Hy Hk']; subst.
      rewrite Hy. apply IH in Hk'. by rewrite Hk'.
Qed.

Lemma mapM_Panic_Exists {A B} (f : A → Outcome B) l :
  mapM f l = Panic ↔ Exists (λ x, f x = Panic) l.
Proof.
  induction l as [|x l IH].
  - split; [done|]. intros Hex. inversion Hex.
  - rewrite mapM_Outcome_cons, Exists_cons.
    destruct (f x) as [y|] eqn:Hy.
    + destruct (mapM f l) as [k|].
      * split; [done|]. intros [|Hex]; [done|]. by apply IH in Hex.
      * split; [|done]. intros _. right. by apply IH.
    + split; auto.
Qed.

(** ** The loops of [SendAvailableCommands] as maps *)

Lemma overload_of_Parameters o :
  overload_of (CommandOverload_Parameters o) = o.
Proof. by destruct o. Qed.

Lemma append_parameter_Some i p overloads o :
  overloads !! i = Some o →
  append_parameter i p overloads
  = Ret (<[i := overload_of (CommandOverload_Parameters o ++ [p])%list]>
           overloads).
Proof. intros Ho. unfold append_parameter. by rewrite Ho. Qed.

(** The innermost loop appends to overload [i] the parameters converted
    in order, and panics when a conversion does. *)
Lemma parameters_loop_eq i params j overloads o :
  overloads !! i = Some o →
  range params j (λ _ paramInfo overloads,
    p ← commandParameter paramInfo;
    append_parameter i p overloads) overloads
  = (ps ← mapM commandParameter params;
     mret (<[i := overload_of (CommandOverload_Parameters o ++ ps)%list]>
             overloads)).
Proof.
  revert j overloads o.
  induction params as [|paramInfo params IH]; intros j overloads o Ho.
  - cbn [range]. change (mapM commandParameter []) with (Ret (@nil CommandParameter)).
    rewrite Outcome_bind_Ret, !Outcome_mret. f_equal.
    rewrite app_nil_r, overload_of_Parameters.
    symmetry. by apply list_insert_id.
  - rewrite mapM_Outcome_cons. cbn [range].
    destruct (commandParameter paramInfo) as [p|];
      [|by rewrite !Outcome_bind_Panic].
    rewrite !Outcome_bind_Ret.
    rewrite (append_parameter_Some _ _ _ _ Ho), Outcome_bind_Ret.
    erewrite IH; last first.
    { apply list_lookup_insert_eq. by eapply lookup_lt_Some. }
    destruct (mapM commandParameter params) as [ps|];
      [|by rewrite !Outcome_bind_Panic].
    rewrite !Outcome_bind_Ret, !Outcome_mret. f_equal.
    rewrite list_insert_insert_eq. simpl.
    by rewrite <- app_assoc.
Qed.

(** The loop over the parameter lists fills the overloads after [done]
    one by one. *)
Lemma overloads_loop_eq params done :
  range params (length done) (λ i params overloads,
    range params 0 (λ _ paramInfo overloads,
      p ← commandParameter paramInfo;
      append_parameter i p overloads) overloads)
    (done ++ replicate (length params) (overload_of []))%list
  = (pss ← mapM (mapM commandParameter) params;
     mret (done ++ (overload_of <$> pss))%list).
Proof.
  revert done.
  induction params as [|ps params IH]; intros done.
  - cbn [range].
    change (mapM (mapM commandParameter) [])
      with (Ret (@nil (list CommandParameter))).
    by outcome_steps.
  - rewrite mapM_Outcome_cons. cbn [range length replicate].
    rewrite (parameters_loop_eq (length done) ps 0%nat _ (overload_of []));
      last first.
    { rewrite lookup_app_r by lia. by rewrite Nat.sub_diag. }
    destruct (mapM commandParameter ps) as [qs|];
      [|by outcome_steps].
    outcome_steps.
    cbn [CommandOverload_Parameters overload_of app].
    replace (<[length done := overload_of qs]>
               (done ++ overload_of [] :: replicate (length params)
                                            (overload_of []))%list)
      with ((done ++ [overload_of qs])
              ++ replicate (length params) (overload_of []))%list.
    2:{ rewrite insert_app_r_alt by lia. rewrite Nat.sub_diag.
        by rewrite <- app_assoc. }
    replace (S (length done)) with (length (done ++ [overload_of qs])%list)
      by (rewrite length_app; simpl; lia).
    rewrite IH.
    destruct (mapM (mapM commandParameter) params) as [qss|];
      [|by outcome_steps].
    outcome_steps.
    by rewrite fmap_cons, <- app_assoc.
Qed.

(** [commandOverloads] as a map over the parameter lists. *)
Lemma commandOverloads_eq (params : list (list ParamInfo)) :
  commandOverloads params
  = (pss ← mapM (mapM commandParameter) params;
     mret (overload_of <$> pss)).
Proof.
  unfold commandOverloads.
  exact (overloads_loop_eq params []).
Qed.

Lemma availableCommand_eq alias c acc :
  availableCommand (alias, c) acc
  = if bool_decide (Name c ≠ alias) then Ret acc
    else match protocolCommand c with
         | Ret cmd => Ret (acc ++ [cmd])%list
         | Panic => Panic
         end.
Proof.
  unfold availableCommand, protocolCommand.
  case_bool_decide; [reflexivity|].
  destruct (commandOverloads (Params c)); reflexivity.
Qed.

(** The loop over the commands appends the commands it does not skip,
    converted, in the order visited. *)
Lemma commands_loop_eq visited i acc :
  range visited i (λ _, availableCommand) acc
  = (cmds ← mapM protocolCommand (filter kept visited).*2;
     mret (acc ++ cmds)%list).
Proof.
  revert i acc.
  induction visited as [|[alias c] visited IH]; intros i acc.
  - cbn [range].
    change (mapM protocolCommand (filter kept []).*2)
      with (Ret (@nil Command)).
    outcome_steps. by rewrite app_nil_r.
  - cbn [range]. cbv beta. rewrite availableCommand_eq.
    case_bool_decide as Hname.
    + outcome_steps. rewrite IH.
      rewrite filter_cons_False; [done|]. unfold kept; simpl. congruence.
    + assert (Name c = alias) as Hkept
        by (destruct (decide (Name c = alias)); [done|contradiction]).
      rewrite filter_cons_True by exact Hkept.
      rewrite fmap_cons, mapM_Outcome_cons. cbn [snd].
      destruct (protocolCommand c) as [cmd|]; [|by outcome_steps].
      outcome_steps. rewrite IH.
      destruct (mapM protocolCommand (filter kept visited).*2) as [cmds|];
        [|by outcome_steps].
      outcome_steps.
      by rewrite <- app_assoc.
Qed.

(** [SendAvailableCommands] in one piece. *)
Lemma SendAvailableCommands_run visited (w : Answers) (s : Session) :
  SendAvailableCommands visited w s
  = match mapM protocolCommand (filter kept visited).*2 with
    | Ret cmds =>
        (Ret (), s, [WritePacket (PAvailableCommands {|
           AvailableCommands_Commands := cmds |})])
    | Panic => (Panic, s, [])
    end.
Proof.
  unfold SendAvailableCommands. rewrite commands_loop_eq.
  destruct (mapM protocolCommand (filter kept visited).*2) as [cmds|];
    reflexivity.
Qed.

(** ** One parameter, one command *)

Lemma land_lor_same (t v : Z) : Z.land (Z.lor t v) v = v.
Proof.
  apply Z.bits_inj'. intros n Hn.
  rewrite Z.land_spec, Z.lor_spec.
  destruct (Z.testbit t n), (Z.testbit v n); reflexivity.
Qed.

Lemma commandParameter_Ret paramInfo p :
  commandParameter paramInfo = Ret p
  ↔ ∃ t enum,
      valueToParamType (ParamInfo_Value paramInfo) = Ret (t, enum)
      ∧ p = {|
          CommandParameter_Name := ParamInfo_Name paramInfo;
          CommandParameter_Type := Z.lor t CommandArgValid;
          CommandParameter_Optional := ParamInfo_Optional paramInfo;
          CommandParameter_CollapseEnumOptions :=
            is_bool_value (ParamInfo_Value paramInfo);
          CommandParameter_Enum := enum;
          CommandParameter_Suffix := ParamInfo_Suffix paramInfo |}.
Proof.
  unfold commandParameter.
  assert (interface_eq_bool (ParamInfo_Value paramInfo) false
          || interface_eq_bool (ParamInfo_Value paramInfo) true
          = is_bool_value (ParamInfo_Value paramInfo)) as ->.
  { destruct (ParamInfo_Value paramInfo) as [|[] ms|type_name calls]; try reflexivity.
    by destruct b. }
  destruct (valueToParamType (ParamInfo_Value paramInfo)) as [[t enum]|].
  - outcome_steps. split.
    + intros [= <-]. by exists t, enum.
    + intros (t' & enum' & [= <- <-] & ->). reflexivity.
  - outcome_steps. split; [done|]. intros (? & ? & ? & _). done.
Qed.

Lemma commandParameter_Panic paramInfo :
  commandParameter paramInfo = Panic
  ↔ valueToParamType (ParamInfo_Value paramInfo) = Panic.
Proof.
  unfold commandParameter.
  destruct (valueToParamType (ParamInfo_Value paramInfo)) as [[t enum]|];
    outcome_steps; split; done.
Qed.

(** X1. [commandOverloads] returns a list of overloads exactly when it
    has one overload for each parameter list, in order, and each
    overload has one parameter for each parameter of its list, in
    order, each the conversion of that parameter. *)
Theorem commandOverloads_returns_iff (params : list (list ParamInfo))
    (overloads : list CommandOverload) :
  commandOverloads params = Ret overloads
  ↔ Forall2 (λ infos overload,
       Forall2 (λ paramInfo p, commandParameter paramInfo = Ret p)
         infos (CommandOverload_Parameters overload))
      params overloads.
Proof.
  rewrite commandOverloads_eq. split.
  - destruct (mapM (mapM commandParameter) params) as [pss|] eqn:Hpss;
      outcome_steps; [|done].
    intros [= <-]. apply mapM_Ret_Forall2 in Hpss.
    apply Forall2_fmap_r. eapply Forall2_impl; [exact Hpss|].
    intros infos ps Hps. by apply mapM_Ret_Forall2 in Hps.
  - intros Hall.
    assert (mapM (mapM commandParameter) params
            = Ret (CommandOverload_Parameters <$> overloads)) as ->.
    { apply mapM_Ret_Forall2, Forall2_fmap_r.
      eapply Forall2_impl; [exact Hall|].
      intros infos o Ho. by apply mapM_Ret_Forall2. }
    outcome_steps. f_equal.
    rewrite <- list_fmap_compose.
    rewrite <- (list_fmap_id overloads) at 2.
    apply list_fmap_ext. intros _ o _. apply overload_of_Parameters.
Qed.

(** X2. The parameter built for a [cmd.ParamInfo] copies its name, its
    optional flag and its suffix, has every bit of [CommandArgValid]
    set in its type, and collapses its enum options exactly when the
    value is a Go bool, in which case the type is [CommandArgValid]
    alone and the enum is the bool enum. *)
Theorem commandParameter_fields (paramInfo : ParamInfo)
    (p : CommandParameter) :
  commandParameter paramInfo = Ret p →
  CommandParameter_Name p = ParamInfo_Name paramInfo
  ∧ CommandParameter_Optional p = ParamInfo_Optional paramInfo
  ∧ CommandParameter_Suffix p = ParamInfo_Suffix paramInfo
  ∧ Z.land (CommandParameter_Type p) CommandArgValid = CommandArgValid
  ∧ CommandParameter_CollapseEnumOptions p
    = is_bool_value (ParamInfo_Value paramInfo)
  ∧ (CommandParameter_CollapseEnumOptions p = true →
     CommandParameter_Type p = CommandArgValid
     ∧ CommandParameter_Enum p = bool_enum).
Proof.
  intros (t & enum & Ht & ->)%commandParameter_Ret. simpl.
  do 3 (split; [reflexivity|]).
  split; [apply land_lor_same|]. split; [reflexivity|].
  intros Hb.
  destruct (ParamInfo_Value paramInfo) as [|[] ms|type_name calls]; try discriminate Hb.
  injection Ht as <- <-. split; reflexivity.
Qed.

Lemma Forall2_elem_of_r {A B} (P : A → B → Prop) l k y :
  Forall2 P l k → y ∈ k → ∃ x, x ∈ l ∧ P x y.
Proof.
  induction 1 as [|x y' l k Hxy _ IH]; intros Hy.
  - by apply elem_of_nil in Hy.
  - apply elem_of_cons in Hy as [->|Hy].
    + exists x. split; [left|done].
    + destruct (IH Hy) as (x' & Hx' & HP). exists x'. split; [by right|done].
Qed.

Lemma protocolCommand_Ret c d :
  protocolCommand c = Ret d
  ↔ ∃ overloads,
      commandOverloads (Params c) = Ret overloads
      ∧ d = {| Command_Name := Name c;
               Command_Description := Description c;
               Command_Aliases := Aliases c;
               Command_Overloads := overloads |}.
Proof.
  unfold protocolCommand.
  destruct (commandOverloads (Params c)) as [overloads|]; outcome_steps.
  - split.
    + intros [= <-]. by exists overloads.
    + intros (overloads' & [= <-] & ->). reflexivity.
  - split; [done|]. intros (? & ? & _). done.
Qed.

Lemma protocolCommand_Panic c :
  protocolCommand c = Panic
  ↔ ∃ infos paramInfo,
      infos ∈ Params c ∧ paramInfo ∈ infos
      ∧ valueToParamType (ParamInfo_Value paramInfo) = Panic.
Proof.
  unfold protocolCommand. rewrite commandOverloads_eq.
  destruct (mapM (mapM commandParameter) (Params c)) as [pss|] eqn:Hpss;
    outcome_steps.
  - split; [done|]. intros (infos & paramInfo & Hinfos & Hinfo & Hpanic).
    assert (mapM (mapM commandParameter) (Params c) = Panic) as Hp;
      [|congruence].
    apply mapM_Panic_Exists, Exists_exists. exists infos. split; [done|].
    apply mapM_Panic_Exists, Exists_exists. exists paramInfo.
    split; [done|]. by apply commandParameter_Panic.
  - split; [|done]. intros _.
    apply mapM_Panic_Exists, Exists_exists in Hpss
      as (infos & Hinfos & Hp).
    apply mapM_Panic_Exists, Exists_exists in Hp
      as (paramInfo & Hinfo & Hp).
    exists infos, paramInfo. by rewrite <- commandParameter_Panic.
Qed.

(** ** The available commands, further *)

(** X3. [SendAvailableCommands] either writes its one packet or panics
    before writing anything, and never changes the session; it panics
    exactly when some command that is not skipped has a parameter on
    whose value [valueToParamType] panics. *)
Theorem SendAvailableCommands_panics_iff
    (visited : list (string * cmd_Command)) (w : Answers) (s : Session) :
  (SendAvailableCommands visited w s = (Panic, s, [])
   ∨ ∃ pk, SendAvailableCommands visited w s
           = (Ret (), s, [WritePacket (PAvailableCommands pk)]))
  ∧ (SendAvailableCommands visited w s = (Panic, s, [])
     ↔ ∃ alias c infos paramInfo,
         (alias, c) ∈ visited ∧ Name c = alias
         ∧ infos ∈ Params c ∧ paramInfo ∈ infos
         ∧ valueToParamType (ParamInfo_Value paramInfo) = Panic).
Proof.
  rewrite SendAvailableCommands_run.
  destruct (mapM protocolCommand (filter kept visited).*2) as [cmds|]
    eqn:Hcmds.
  - split; [right; eauto|]. split; [done|].
    intros (alias & c & infos & paramInfo & Hin & Hname & Hrest).
    assert (mapM protocolCommand (filter kept visited).*2 = Panic) as Hp;
      [|congruence].
    apply mapM_Panic_Exists, Exists_exists. exists c. split.
    + apply list_elem_of_fmap. exists (alias, c). split; [done|].
      by apply list_elem_of_filter.
    + apply protocolCommand_Panic. eauto.
  - split; [by left|]. split; [|done]. intros _.
    apply mapM_Panic_Exists, Exists_exists in Hcmds as (c & Hc & Hp).
    apply list_elem_of_fmap in Hc
      as ([alias c'] & -> & [Hk Hin]%list_elem_of_filter).
    apply protocolCommand_Panic in Hp as (infos & paramInfo & Hrest).
    exists alias, c', infos, paramInfo. by split.
Qed.

Lemma mapM_Outcome_Permutation {A B} (f : A → Outcome B) l1 l2 k1 :
  l1 ≡ₚ l2 → mapM f l1 = Ret k1 →
  ∃ k2, mapM f l2 = Ret k2 ∧ k1 ≡ₚ k2.
Proof.
  intros Hperm. revert k1.
  induction Hperm as [|x l1 l2 _ IH|x y l|l1 l2 l3 _ IH1 _ IH2]; intros k1.
  - intros [= <-]. by exists [].
  - rewrite !mapM_Outcome_cons.
    destruct (f x) as [fx|]; [|done].
    destruct (mapM f l1) as [k|]; [|done].
    intros [= <-]. destruct (IH k eq_refl) as (k2 & -> & Hk).
    exists (fx :: k2). split; [done|]. by constructor.
  - rewrite !mapM_Outcome_cons.
    destruct (f y) as [fy|]; [|done].
    destruct (f x) as [fx|]; [|done].
    destruct (mapM f l) as [k|]; [|done].
    intros [= <-]. exists (fx :: fy :: k). split; [done|]. constructor.
  - intros Hk1. destruct (IH1 k1 Hk1) as (k2 & Hk2 & Hp12).
    destruct (IH2 k2 Hk2) as (k3 & Hk3 & Hp23).
    exists k3. split; [done|]. by etrans.
Qed.

(** X4. The order in which the map of commands is visited does not
    matter beyond the order of the commands in the packet: if the
    packet is written for one order, it is written for every other
    order, with the same commands rearranged. *)
Theorem SendAvailableCommands_any_order
    (visited1 visited2 : list (string * cmd_Command)) (w : Answers)
    (s : Session) (cmds1 : list Command) :
  visited1 ≡ₚ visited2 →
  SendAvailableCommands visited1 w s
    = (Ret (), s, [WritePacket (PAvailableCommands {|
         AvailableCommands_Commands := cmds1 |})]) →
  ∃ cmds2 : list Command,
    SendAvailableCommands visited2 w s
      = (Ret (), s, [WritePacket (PAvailableCommands {|
           AvailableCommands_Commands := cmds2 |})])
    ∧ cmds1 ≡ₚ cmds2.
Proof.
  intros Hperm. rewrite !SendAvailableCommands_run.
  destruct (mapM protocolCommand (filter kept visited1).*2) as [cmds|]
    eqn:Hcmds; [|done].
  intros [= <-].
  destruct (mapM_Outcome_Permutation protocolCommand
              (filter kept visited1).*2 (filter kept visited2).*2 cmds)
    as (cmds2 & -> & Hp); [by rewrite Hperm|done|].
  by exists cmds2.
Qed.

(** X5. Every command in the packet comes from the entry of the map
    under its name: it has the name, the description and the aliases
    of the command registered there, and the overloads are those of
    its parameter lists. *)
Theorem SendAvailableCommands_commands (commands : gmap string cmd_Command)
    (visited : list (string * cmd_Command)) (w : Answers) (s : Session)
    (cmds : list Command) (d : Command) :
  ranges_over commands visited →
  SendAvailableCommands visited w s
    = (Ret (), s, [WritePacket (PAvailableCommands {|
         AvailableCommands_Commands := cmds |})]) →
  d ∈ cmds →
  ∃ c : cmd_Command,
    commands !! Command_Name d = Some c
    ∧ Name c = Command_Name d
    ∧ Description c = Command_Description d
    ∧ Aliases c = Command_Aliases d
    ∧ commandOverloads (Params c) = Ret (Command_Overloads d).
Proof.
  intros Hv. rewrite SendAvailableCommands_run.
  destruct (mapM protocolCommand (filter kept visited).*2) as [cmds'|]
    eqn:Hcmds; [|done].
  intros [= <-] Hd.
  apply mapM_Ret_Forall2 in Hcmds.
  destruct (Forall2_elem_of_r _ _ _ _ Hcmds Hd) as (c & Hc & Hcd).
  apply list_elem_of_fmap in Hc
    as ([alias c'] & -> & [Hk Hin]%list_elem_of_filter).
  simpl in *. unfold kept in Hk. simpl in Hk.
  apply protocolCommand_Ret in Hcd as (overloads & Hov & ->). simpl.
  exists c'. split; [|done].
  rewrite Hk. by apply (ranges_over_elem_of commands visited).
Qed.

(** X6. Every parameter of every overload of every command in the
    packet has every bit of [CommandArgValid] set in its type, and one
    that collapses its enum options has the type [CommandArgValid]
    alone and the bool enum. *)
Theorem SendAvailableCommands_parameters
    (visited : list (string * cmd_Command)) (w : Answers) (s : Session)
    (cmds : list Command) (d : Command) (o : CommandOverload)
    (p : CommandParameter) :
  SendAvailableCommands visited w s
    = (Ret (), s, [WritePacket (PAvailableCommands {|
         AvailableCommands_Commands := cmds |})]) →
  d ∈ cmds →
  o ∈ Command_Overloads d →
  p ∈ CommandOverload_Parameters o →
  Z.land (CommandParameter_Type p) CommandArgValid = CommandArgValid
  ∧ (CommandParameter_CollapseEnumOptions p = true →
     CommandParameter_Type p = CommandArgValid
     ∧ CommandParameter_Enum p = bool_enum).
Proof.
  rewrite SendAvailableCommands_run.
  destruct (mapM protocolCommand (filter kept visited).*2) as [cmds'|]
    eqn:Hcmds; [|done].
  intros [= <-] Hd Ho Hp.
  apply mapM_Ret_Forall2 in Hcmds.
  destruct (Forall2_elem_of_r _ _ _ _ Hcmds Hd) as (c & _ & Hcd).
  apply protocolCommand_Ret in Hcd as (overloads & Hov & ->).
  simpl in Ho. rewrite commandOverloads_eq in Hov.
  destruct (mapM (mapM commandParameter) (Params c)) as [pss|] eqn:Hpss;
    [|done].
  revert Hov. outcome_steps. intros [= <-].
  apply list_elem_of_fmap in Ho as (ps & -> & Hps). simpl in Hp.
  apply mapM_Ret_Forall2 in Hpss.
  destruct (Forall2_elem_of_r _ _ _ _ Hpss Hps) as (infos & _ & Hinfos).
  apply mapM_Ret_Forall2 in Hinfos.
  destruct (Forall2_elem_of_r _ _ _ _ Hinfos Hp) as (paramInfo & _ & Hpi).
  apply commandParameter_Ret in Hpi as (t & enum & Ht & ->). simpl.
  split; [apply land_lor_same|].
  intros Hb.
  destruct (ParamInfo_Value paramInfo) as [|[] ms|type_name calls]; try discriminate Hb.
  injection Ht as <- <-. split; reflexivity.
Qed.

(** ** The senders, taken together *)

(** X7. A sender calls nothing but [WritePacket], once, and returns.
    The exceptions are [SendCommandOutput] on a nil pointer, which
    panics, and [SendAvailableCommands], which may panic: then nothing
    has been written and the session is as it was. *)
Theorem send_only_writes (call : Outbound) (w : Answers) (s : Session) :
  (∃ pk : Packet,
     send call w s = (Ret (), session_of (send call w s), [WritePacket pk]))
  ∨ (send call w s = (Panic, s, [])
     ∧ (call = call_SendCommandOutput None
        ∨ ∃ visited, call = call_SendAvailableCommands visited)).
Proof.
  destruct call as [| | | | | | | | | | | | |output|visited];
    try (left; eexists; reflexivity).
  - destruct output as [output|].
    + left. eexists; reflexivity.
    + right. split; [reflexivity|]. by left.
  - simpl. rewrite SendAvailableCommands_run.
    destruct (mapM protocolCommand (filter kept visited).*2) as [cmds|].
    + left. eexists; reflexivity.
    + right. split; [reflexivity|]. right. eauto.
Qed.

(** X8. No sender looks at [controllableClosed] or at what
    [WritePacket] answers: on a session that is closed, and on a
    connection whose writes fail, it writes the same packet and
    returns in the same way. *)
Theorem send_ignores_closed_and_answers (call : Outbound)
    (w w' : Answers) (s : Session) (closed : bool) :
  outcome_of (send call w' (store_controllableClosed closed s))
    = outcome_of (send call w s)
  ∧ trace_of (send call w' (store_controllableClosed closed s))
    = trace_of (send call w s).
Proof.
  destruct call as [| | | | | | | | | | | | |output|visited];
    try (split; reflexivity).
  - by destruct output.
  - simpl. rewrite !SendAvailableCommands_run.
    destruct (mapM protocolCommand (filter kept visited).*2) as [cmds|];
      split; reflexivity.
Qed.

(** ** One packet *)

(** X9. [handlePacket] never panics, never writes a packet and never
    touches the display name or [controllableClosed]. When it returns
    an error it has done nothing at all; otherwise it has done one
    thing: a call of the controllable, or a debug line for a packet
    that is neither a text nor a command request. *)
Theorem handlePacket_effects (pk : Packet) (w : Answers) (s : Session) :
  (∃ err, handlePacket pk w s = (Ret (Some err), s, []))
  ∨ (∃ (e : Event) (s' : Session),
       handlePacket pk w s = (Ret None, s', [e])
       ∧ DisplayName s' = DisplayName s
       ∧ controllableClosed s' = controllableClosed s
       ∧ (is_controllable_call e = true
          ∨ e = Debugf pk ∧ s' = s
            ∧ (∀ t, pk ≠ PText t) ∧ (∀ c, pk ≠ PCommandRequest c))).
Proof.
  destruct pk as [t|c| | | | | | |];
    try (right; eexists _, s; split; [reflexivity|];
         do 2 (split; [reflexivity|]); right; by repeat split).
  - simpl. unfold handleText, mbind, M_bind, get_session. simpl.
    repeat case_bool_decide.
    + left. eexists; reflexivity.
    + left. eexists; reflexivity.
    + right. eexists _, s. split; [reflexivity|]. by repeat split; try left.
  - simpl. unfold handleCommandRequest.
    destruct (CommandRequest_Internal c).
    + left. eexists; reflexivity.
    + right. eexists _, _. split; [reflexivity|]. by repeat split; try left.
Qed.

(** ** The packet loop, further *)

Lemma store_controllableClosed_same s :
  store_controllableClosed (controllableClosed s) s = s.
Proof. by destruct s. Qed.

Lemma mapM_Disconnect_run messages (w : Answers) (s : Session) :
  mapM Disconnect messages w s
  = (Ret (replicate (length messages) ()),
     after_disconnects messages s,
     (λ message, WritePacket (Disconnect_packet message)) <$> messages).
Proof.
  revert s. induction messages as [|message messages IH]; intros s.
  - reflexivity.
  - change (mapM Disconnect (message :: messages))
      with (y ← Disconnect message;
            k ← mapM Disconnect messages; mret (y :: k)).
    unfold mbind at 1. unfold M_bind at 1.
    change (Disconnect message w s)
      with (Ret (), store_controllableClosed true s,
            [WritePacket (Disconnect_packet message)]).
    cbv beta iota.
    unfold mbind at 1. unfold M_bind at 1. rewrite IH.
    unfold mret, M_ret. cbv beta iota zeta. rewrite app_nil_r.
    destruct messages; reflexivity.
Qed.

(** One turn of the loop, with the binds carried out. *)
Lemma packet_loop_cons turn turns (w : Answers) (s : Session) :
  packet_loop (turn :: turns) w s
  = let s1 := after_disconnects (disconnects turn) s in
    let t1 := (λ message, WritePacket (Disconnect_packet message))
                <$> disconnects turn in
    match read turn with
    | read_error err => (Ret (Some (exit_read_error err)), s1, t1)
    | read_packet pk =>
        if controllableClosed s1
        then (Ret (Some exit_controllable_closed), s1, t1)
        else
          match handlePacket pk w s1 with
          | (Ret (Some err), s2, t2) =>
              (Ret (Some (exit_handler_error err)), s2,
               (t1 ++ t2 ++ [Errorf err])%list)
          | (Ret None, s2, t2) =>
              let '(r, s3, t3) := packet_loop turns w s2 in
              (r, s3, (t1 ++ t2 ++ t3)%list)
          | (Panic, s2, t2) => (Panic, s2, (t1 ++ t2)%list)
          end
    end.
Proof.
  cbn [packet_loop]. unfold mbind at 1. unfold M_bind at 1.
  rewrite mapM_Disconnect_run. cbv beta iota zeta.
  destruct (read turn) as [pk|err].
  - unfold mbind at 1. unfold M_bind at 1. unfold get_session at 1.
    cbv beta iota zeta.
    destruct (controllableClosed (after_disconnects (disconnects turn) s)).
    + unfold mret, M_ret. by rewrite !app_nil_r.
    + unfold mbind at 1. unfold M_bind at 1.
      destruct (handlePacket pk w (after_disconnects (disconnects turn) s))
        as [[[[err|]|] s2] t2]; try reflexivity.
      destruct (packet_loop turns w s2) as [[r s3] t3]. reflexivity.
  - unfold mret, M_ret. by rewrite app_nil_r.
Qed.

Lemma handlePackets_eq turns (w : Answers) (s : Session) :
  handlePackets turns w s
  = match packet_loop turns w s with
    | (Ret None, s1, t1) => (Ret None, s1, t1)
    | (r, s1, t1) => (r, s1, (t1 ++ Close_events s1)%list)
    end.
Proof.
  unfold handlePackets.
  destruct (packet_loop turns w s) as [[[[exit|]|] s1] t1]; reflexivity.
Qed.

Lemma after_disconnects_closed messages s :
  controllableClosed s = true → after_disconnects messages s = s.
Proof.
  intros Hc. destruct messages; [reflexivity|]. simpl.
  rewrite <- Hc. apply store_controllableClosed_same.
Qed.

Lemma after_disconnects_keeps_closed messages s :
  controllableClosed s = true →
  controllableClosed (after_disconnects messages s) = true.
Proof. intros Hc. by destruct messages. Qed.

(** On a closed session a turn ends the loop before the packet read is
    looked at. *)
Lemma packet_loop_closed turn turns (w : Answers) (s : Session) :
  controllableClosed s = true →
  packet_loop (turn :: turns) w s
  = (Ret (Some match read turn with
               | read_error err => exit_read_error err
               | read_packet _ => exit_controllable_closed
               end),
     s,
     (λ message, WritePacket (Disconnect_packet message))
       <$> disconnects turn).
Proof.
  intros Hc. rewrite packet_loop_cons. cbv zeta.
  rewrite (after_disconnects_closed _ _ Hc), Hc.
  by destruct (read turn).
Qed.

(** X10. Once [controllableClosed] is true no packet is handled any
    more: whatever arrives next, [handlePackets] makes no call of
    [Chat] or [ExecuteCommand]; it returns at the first turn, because
    of the read error if there is one and because the session is
    closed otherwise, and closes. *)
Theorem closed_session_handles_nothing (turn : Turn) (turns : list Turn)
    (w : Answers) (s : Session) :
  controllableClosed s = true →
  handlePackets (turn :: turns) w s
  = (Ret (Some match read turn with
               | read_error err => exit_read_error err
               | read_packet _ => exit_controllable_closed
               end),
     s,
     (((λ message, WritePacket (Disconnect_packet message))
         <$> disconnects turn)
      ++ Close_events s)%list).
Proof.
  intros Hc. rewrite handlePackets_eq, (packet_loop_closed _ _ _ _ Hc).
  reflexivity.
Qed.

Lemma packet_loop_keeps_closed turns (w : Answers) (s : Session) :
  controllableClosed s = true →
  controllableClosed (session_of (packet_loop turns w s)) = true.
Proof.
  intros Hc. destruct turns as [|turn turns]; [exact Hc|].
  by rewrite (packet_loop_closed _ _ _ _ Hc).
Qed.

(** X11. Nothing sets [controllableClosed] back to false: a session
    that is closed is still closed after any sender, after
    [handlePacket], after [handlePackets] and after [Close]. *)
Theorem closed_stays_closed (call : Outbound) (pk : Packet)
    (turns : list Turn) (w : Answers) (s : Session) :
  controllableClosed s = true →
  controllableClosed (session_of (send call w s)) = true
  ∧ controllableClosed (session_of (handlePacket pk w s)) = true
  ∧ controllableClosed (session_of (handlePackets turns w s)) = true
  ∧ controllableClosed (session_of (Close w s)) = true.
Proof.
  intros Hc. split; [|split; [|split]].
  - destruct call as [| | | | | | | | | | | | |output|visited];
      try exact Hc; try reflexivity.
    + by destruct output.
    + simpl. rewrite SendAvailableCommands_run.
      by destruct (mapM protocolCommand (filter kept visited).*2).
  - destruct pk as [t|c| | | | | | |]; try exact Hc.
    + simpl. unfold handleText, mbind, M_bind, get_session. simpl.
      by repeat case_bool_decide.
    + simpl. unfold handleCommandRequest.
      by destruct (CommandRequest_Internal c).
  - rewrite handlePackets_eq.
    pose proof (packet_loop_keeps_closed turns w s Hc) as Hl.
    destruct (packet_loop turns w s) as [[[[exit|]|] s1] t1]; exact Hl.
  - exact Hc.
Qed.

(** The loop on turns followed by more turns. *)
Lemma packet_loop_app turns more (w : Answers) (s : Session) :
  packet_loop (turns ++ more) w s
  = match packet_loop turns w s with
    | (Ret None, s1, t1) =>
        let '(r, s2, t2) := packet_loop more w s1 in
        (r, s2, (t1 ++ t2)%list)
    | stopped => stopped
    end.
Proof.
  revert s. induction turns as [|turn turns IH]; intros s.
  - simpl. by destruct (packet_loop more w s) as [[r s2] t2].
  - rewrite <- app_comm_cons, !packet_loop_cons. cbv zeta.
    destruct (read turn) as [pk|err]; [|reflexivity].
    destruct (controllableClosed _); [reflexivity|].
    destruct (handlePacket pk w _) as [[[[err|]|] s2] t2]; try reflexivity.
    rewrite IH.
    destruct (packet_loop turns w s2) as [[[[exit|]|] s3] t3];
      try reflexivity.
    destruct (packet_loop more w s3) as [[r s4] t4].
    by rewrite !app_assoc.
Qed.

(** X12. What [handlePackets] does on turns followed by more turns:
    if it has returned within the first turns, the rest is never read
    and changes nothing; if it is still reading after them, it goes on
    with the rest from the session it has reached. *)
Theorem handlePackets_app (turns more : list Turn) (w : Answers)
    (s : Session) :
  handlePackets (turns ++ more) w s
  = match handlePackets turns w s with
    | (Ret None, s1, t1) =>
        let '(r, s2, t2) := handlePackets more w s1 in
        (r, s2, (t1 ++ t2)%list)
    | stopped => stopped
    end.
Proof.
  rewrite !handlePackets_eq, packet_loop_app.
  destruct (packet_loop turns w s) as [[[[exit|]|] s1] t1]; try reflexivity.
  rewrite handlePackets_eq.
  destruct (packet_loop more w s1) as [[[[exit|]|] s2] t2];
    try reflexivity; by rewrite app_assoc.
Qed.

(** C9. [Close] calls [Close] on the controllable and on the
    connection once each, prints one line saying the player left, and
    returns nil whatever the two calls answer. [handlePackets] never
    panics; while the loop has not returned no closing event has
    happened, and when it returns, for whichever of the three reasons,
    the trace ends with the events of exactly one [Close] and holds no
    other closing event. The loop returns, and [Close] runs, at the
    first turn in which [ReadPacket] fails, or [controllableClosed] is
    found true, or the handler of the packet returns an error, which is
    logged first; after a turn in which none of these happens it goes
    on with the next turn, and with no turn left it has not returned. *)
Theorem Close_once (turns : list Turn) (w : Answers) (s : Session) :
  Close w s
    = (Ret None, s,
       [Controllable_Close; Conn_Close;
        Println (yellow [DisplayName s; "has left the game"])])
  ∧ (∃ (r : option Exit) (s' : Session) (t : list Event),
      packet_loop turns w s = (Ret r, s', t)
      ∧ Forall (λ e, is_closing_event e = false) t
      ∧ handlePackets turns w s
        = match r with
          | None => (Ret None, s', t)
          | Some exit =>
              (Ret (Some exit), s',
               (t ++ [Controllable_Close; Conn_Close;
                      Println (yellow [DisplayName s;
                                       "has left the game"])])%list)
          end)
  ∧ handlePackets [] w s = (Ret None, s, [])
  ∧ ∀ (turn : Turn) (rest : list Turn),
      let s1 := after_disconnects (disconnects turn) s in
      let t1 := (λ message, WritePacket (Disconnect_packet message))
                  <$> disconnects turn in
      (∀ err, read turn = read_error err →
         handlePackets (turn :: rest) w s
         = (Ret (Some (exit_read_error err)), s1,
            (t1 ++ trace_of (Close w s1))%list))
      ∧ (∀ pk, read turn = read_packet pk →
         controllableClosed s1 = true →
         handlePackets (turn :: rest) w s
         = (Ret (Some exit_controllable_closed), s1,
            (t1 ++ trace_of (Close w s1))%list))
      ∧ (∀ pk err s2 t2, read turn = read_packet pk →
         controllableClosed s1 = false →
         handlePacket pk w s1 = (Ret (Some err), s2, t2) →
         handlePackets (turn :: rest) w s
         = (Ret (Some (exit_handler_error err)), s2,
            ((t1 ++ t2 ++ [Errorf err]) ++ trace_of (Close w s2))%list))
      ∧ (∀ pk s2 t2, read turn = read_packet pk →
         controllableClosed s1 = false →
         handlePacket pk w s1 = (Ret None, s2, t2) →
         handlePackets (turn :: rest) w s
         = let '(r, s3, t3) := handlePackets rest w s2 in
           (r, s3, (t1 ++ t2 ++ t3)%list)).
Proof.
  split; [reflexivity|]. split; [|split; [reflexivity|]].
  - destruct (quiet_packet_loop turns w s) as ([r Hr] & Hn & Ht).
    unfold handlePackets.
    destruct (packet_loop turns w s) as [[o s'] t].
    unfold outcome_of, session_of, trace_of in *. simpl in *. subst o.
    exists r, s', t. split; [reflexivity|]. split; [exact Ht|].
    destruct r as [exit|]; [|reflexivity].
    unfold Close, mbind, M_bind; simpl. by rewrite Hn.
  - intros turn rest. cbv zeta.
    rewrite handlePackets_eq, packet_loop_cons. cbv zeta.
    split; [|split; [|split]].
    + intros err ->. reflexivity.
    + intros pk -> ->. reflexivity.
    + intros pk err s2 t2 -> -> ->. reflexivity.
    + intros pk s2 t2 -> -> ->. rewrite handlePackets_eq.
      destruct (packet_loop rest w s2) as [[[[exit|]|] s3] t3];
        try reflexivity; by rewrite !app_assoc.
Qed.

Lemma handleText_accepts pk (w : Answers) (s : Session) :
  Text_TextType pk = TextTypeChat →
  Text_SourceName pk = DisplayName s →
  handleText pk w s = (Ret None, s, [Chat (Text_Message pk)]).
Proof.
  intros Hty Hname.
  unfold handleText, mbind, M_bind, get_session. simpl.
  rewrite bool_decide_false by (intros Hne; by apply Hne).
  rewrite bool_decide_false by (intros Hne; by apply Hne).
  reflexivity.
Qed.

Lemma handleCommandRequest_accepts pk (w : Answers) (s : Session) :
  CommandRequest_Internal pk = false →
  handleCommandRequest pk w s
  = (Ret None, set_cmdOrigin (CommandRequest_CommandOrigin pk) s,
     [ExecuteCommand (CommandRequest_CommandLine pk)]).
Proof. intros Hi. unfold handleCommandRequest. by rewrite Hi. Qed.

(** X13. On an open session, chat messages that arrive under the
    display name of the session are all passed to [Chat], in the order
    they arrive; nothing else happens and the loop keeps reading. *)
Theorem loop_passes_chat_on (messages : list string) (w : Answers)
    (s : Session) :
  controllableClosed s = false →
  handlePackets (chat_turn (DisplayName s) <$> messages) w s
  = (Ret None, s, Chat <$> messages).
Proof.
  intros Hc. rewrite handlePackets_eq.
  assert (packet_loop (chat_turn (DisplayName s) <$> messages) w s
          = (Ret None, s, Chat <$> messages)) as ->; [|reflexivity].
  induction messages as [|message messages IH]; [reflexivity|].
  rewrite fmap_cons, packet_loop_cons. cbn [chat_turn disconnects read].
  cbv zeta. cbn [after_disconnects]. rewrite Hc.
  cbn [handlePacket]. rewrite handleText_accepts by reflexivity.
  rewrite IH. reflexivity.
Qed.

(** X14. On an open session, command requests without the internal
    flag are all executed, in the order they arrive, and the loop keeps
    reading; afterwards [cmdOrigin] is the origin of the last of them
    (what it was, if there was none), and that is the origin of the
    packet [SendCommandOutput] then writes. *)
Theorem loop_keeps_last_origin (requests : list CommandRequest)
    (output : Output) (w : Answers) (s : Session) :
  controllableClosed s = false →
  Forall (λ pk, CommandRequest_Internal pk = false) requests →
  ∃ s' : Session,
    handlePackets (command_turn <$> requests) w s
      = (Ret None, s',
         (λ pk, ExecuteCommand (CommandRequest_CommandLine pk)) <$> requests)
    ∧ s' = set_cmdOrigin
             (default (cmdOrigin s)
                (last (CommandRequest_CommandOrigin <$> requests))) s
    ∧ ∃ pk : CommandOutput,
        SendCommandOutput output w s'
          = (Ret (), s', [WritePacket (PCommandOutput pk)])
        ∧ CommandOutput_CommandOrigin pk
          = default (cmdOrigin s)
              (last (CommandRequest_CommandOrigin <$> requests)).
Proof.
  intros Hc Hall. eexists. split; [|split; [reflexivity|]].
  - rewrite handlePackets_eq.
    assert (packet_loop (command_turn <$> requests) w s
            = (Ret None,
               set_cmdOrigin
                 (default (cmdOrigin s)
                    (last (CommandRequest_CommandOrigin <$> requests))) s,
               (λ pk, ExecuteCommand (CommandRequest_CommandLine pk))
                 <$> requests)) as ->; [|reflexivity].
    revert s Hc.
    induction Hall as [|pk requests Hpk Hall IH]; intros s Hc.
    + simpl. by destruct s.
    + rewrite fmap_cons, packet_loop_cons.
      cbn [command_turn disconnects read]. cbv zeta.
      cbn [after_disconnects]. rewrite Hc. cbn [handlePacket].
      rewrite (handleCommandRequest_accepts _ _ _ Hpk).
      rewrite IH by exact Hc.
      rewrite !fmap_cons. simpl. f_equal. f_equal.
      unfold set_cmdOrigin. simpl. f_equal.
      destruct (CommandRequest_CommandOrigin <$> requests) as [|o os];
        [reflexivity|].
      assert (is_Some (last (o :: os))) as [x Hx]
        by (by apply last_is_Some).
      change (last (CommandRequest_CommandOrigin pk :: o :: os))
        with (last (o :: os)).
      by rewrite Hx.
  - eexists. split; [apply SendCommandOutput_run|]. reflexivity.
Qed.

Lemma logged_errors_app t1 t2 :
  logged_errors (t1 ++ t2) = (logged_errors t1 ++ logged_errors t2)%list.
Proof. apply omap_app. Qed.

Lemma logged_errors_disconnects (messages : list string) :
  logged_errors ((λ message, WritePacket (Disconnect_packet message))
                   <$> messages) = [].
Proof. induction messages; [reflexivity|]. simpl. exact IHmessages. Qed.

Lemma logged_errors_handlePacket pk (w : Answers) (s : Session) :
  logged_errors (trace_of (handlePacket pk w s)) = [].
Proof.
  destruct pk as [t|c| | | | | | |]; try reflexivity.
  - simpl. unfold handleText, mbind, M_bind, get_session. simpl.
    by repeat case_bool_decide.
  - simpl. unfold handleCommandRequest.
    by destruct (CommandRequest_Internal c).
Qed.

Lemma logged_errors_packet_loop turns (w : Answers) (s : Session) :
  logged_errors (trace_of (packet_loop turns w s))
  = match outcome_of (packet_loop turns w s) with
    | Ret (Some (exit_handler_error err)) => [err]
    | _ => []
    end.
Proof.
  revert s. induction turns as [|turn turns IH]; intros s; [reflexivity|].
  rewrite packet_loop_cons. cbv zeta.
  destruct (read turn) as [pk|err];
    [|apply logged_errors_disconnects].
  destruct (controllableClosed _); [apply logged_errors_disconnects|].
  pose proof (logged_errors_handlePacket pk w
                (after_disconnects (disconnects turn) s)) as Hh.
  destruct (handlePacket pk w _) as [[[[err|]|] s2] t2];
    unfold trace_of, outcome_of in *; simpl in *.
  - rewrite !logged_errors_app, logged_errors_disconnects, Hh. reflexivity.
  - specialize (IH s2).
    destruct (packet_loop turns w s2) as [[r s3] t3]. simpl in *.
    rewrite !logged_errors_app, logged_errors_disconnects, Hh. exact IH.
  - rewrite !logged_errors_app, logged_errors_disconnects, Hh. reflexivity.
Qed.

(** X15. [handlePackets] logs an error exactly when it returns because
    a handler rejected a packet, and then once, the error of the
    handler: a read error and a closed session are not logged. *)
Theorem handlePackets_logs_handler_error (turns : list Turn) (w : Answers)
    (s : Session) :
  logged_errors (trace_of (handlePackets turns w s))
  = match outcome_of (handlePackets turns w s) with
    | Ret (Some (exit_handler_error err)) => [err]
    | _ => []
    end.
Proof.
  rewrite handlePackets_eq.
  pose proof (logged_errors_packet_loop turns w s) as Hl.
  destruct (packet_loop turns w s) as [[[[exit|]|] s1] t1];
    unfold trace_of, outcome_of in *; simpl in *;
    rewrite ?logged_errors_app, ?Hl; simpl; rewrite ?app_nil_r;
    reflexivity.
Qed.

Lemma printed_app t1 t2 : printed (t1 ++ t2) = (printed t1 ++ printed t2)%list.
Proof. apply omap_app. Qed.

Lemma printed_no_closing_event (t : list Event) :
  Forall (λ e, is_closing_event e = false) t → printed t = [].
Proof.
  induction 1 as [|e t He _ IH]; [reflexivity|].
  destruct e; try discriminate He; exact IH.
Qed.

(** X16. The life of a session in the global chat: [New] returns an
    open session and prints that the player joined; when
    [handlePackets] then returns, one more line has been printed, that
    the same player left, and while it is still reading, none. *)
Theorem New_then_handlePackets (displayName : string)
    (zero : CommandOrigin) (turns : list Turn) (w : Answers) :
  controllableClosed (New displayName zero).1 = false
  ∧ printed ((New displayName zero).2
             ++ trace_of (handlePackets turns w (New displayName zero).1))
    = match outcome_of (handlePackets turns w (New displayName zero).1) with
      | Ret None => [yellow [displayName; "has joined the game"]]
      | _ => [yellow [displayName; "has joined the game"];
              yellow [displayName; "has left the game"]]
      end.
Proof.
  split; [reflexivity|].
  rewrite printed_app, handlePackets_eq.
  destruct (quiet_packet_loop turns w (New displayName zero).1)
    as ([r Hr] & Hn & Ht).
  destruct (packet_loop turns w (New displayName zero).1) as [[o s1] t1].
  unfold outcome_of, session_of, trace_of in *. simpl in Hr, Hn, Ht.
  subst o. apply printed_no_closing_event in Ht.
  destruct r as [exit|]; simpl.
  - rewrite printed_app, Ht. unfold Close_events. simpl. by rewrite Hn.
  - by rewrite Ht.
Qed.

(** X17. A port between 0 and 65535 is sent as it is, and so is every
    port that differs from it by a multiple of 65536: [Transfer] tells
    them apart neither in the packet nor in what it returns. *)
Theorem Transfer_port_classes (ip : list Byte.byte) (port k : Z)
    (w : Answers) (s : Session) :
  0 ≤ port < 2 ^ 16 →
  Transfer ip (port + k * 2 ^ 16) w s
  = (Ret (), s, [WritePacket (PTransfer {|
       Transfer_Address := IP_String ip;
       Transfer_Port := port |})]).
Proof.
  intros Hport. unfold Transfer, uint16.
  rewrite Z.mod_add by lia. rewrite Z.mod_small by exact Hport.
  reflexivity.
Qed.

(** X18. A [cmd.Parameter] of a type the switch does not list whose
    call of [Type] returns: it is a target when [Type] returns "player"
    or "target", and then [Options] is not called; otherwise, when it
    is a [cmd.Enum] too, it is the enum of that type and of the options
    that the call of [Options] returns, with type 0, and the function
    panics if that call does; otherwise it is a
    [CommandArgTypeValue]. *)
Theorem valueToParamType_of_parameter (i : Value) (ty : string) :
  past_switch i = true →
  (assertParameter i).2 = true →
  call_Type (assertParameter i).1 = Ret ty →
  valueToParamType i
  = if String.eqb ty "player" || String.eqb ty "target"
    then Ret (CommandArgTypeTarget, CommandEnum_zero)
    else if (assertEnum i).2
         then match call_Options (assertEnum i).1 with
              | Ret options =>
                  Ret (0, {| EnumType := ty; EnumOptions := options |})
              | Panic => Panic
              end
         else Ret (CommandArgTypeValue, CommandEnum_zero).
Proof.
  intros Hsw _ Hty.
  rewrite (valueToParamType_past_switch i Hsw), Hty.
  destruct (String.eqb ty "player" || String.eqb ty "target");
    [reflexivity|].
  destruct ((assertEnum i).2); [|reflexivity].
  by destruct (call_Options (assertEnum i).1).
Qed.

(** X20. A call of [Disconnect] made while the loop waits for a packet
    ends the loop at that turn: the packet that arrives is not handled,
    the session is closed, and the trace holds the disconnect packets
    followed by the events of one [Close]. *)
Theorem Disconnect_ends_loop (turn : Turn) (turns : list Turn)
    (w : Answers) (s : Session) :
  disconnects turn ≠ [] →
  handlePackets (turn :: turns) w s
  = (Ret (Some match read turn with
               | read_error err => exit_read_error err
               | read_packet _ => exit_controllable_closed
               end),
     store_controllableClosed true s,
     (((λ message, WritePacket (Disconnect_packet message))
         <$> disconnects turn)
      ++ Close_events s)%list).
Proof.
  intros Hd. rewrite handlePackets_eq, packet_loop_cons. cbv zeta.
  destruct (disconnects turn) as [|message messages]; [done|].
  cbn [after_disconnects].
  destruct (read turn); reflexivity.
Qed.

End MoreProperties.

(** * The further properties on concrete inputs *)

(** X2 on the second parameter of the gamemode command, a bool. *)
Lemma commandParameter_fields_witness :
  let paramInfo := {| ParamInfo_Name := "silent";
                      ParamInfo_Value := VDyn (DBool false) no_methods;
                      ParamInfo_Optional := true;
                      ParamInfo_Suffix := "" |} in
  let p := {| CommandParameter_Name := "silent";
              CommandParameter_Type := 1048576;
              CommandParameter_Optional := true;
              CommandParameter_CollapseEnumOptions := true;
              CommandParameter_Enum := bool_enum;
              CommandParameter_Suffix := "" |} in
  commandParameter (H := sample_externals) paramInfo = Ret p
  ∧ Z.land (CommandParameter_Type p) 1048576 = 1048576
  ∧ CommandParameter_CollapseEnumOptions p = true.
Proof.
  intros paramInfo p.
  assert (commandParameter (H := sample_externals) paramInfo = Ret p) as Hp
    by reflexivity.
  split; [exact Hp|].
  destruct (commandParameter_fields (H := sample_externals) paramInfo p Hp)
    as (_ & _ & _ & Hvalid & Hcollapse & _).
  split; [exact Hvalid|exact Hcollapse].
Defined.

(** X4 on the two orders of visiting [sample_commands]. *)
Lemma SendAvailableCommands_any_order_witness :
  sample_visited ≡ₚ reverse sample_visited
  ∧ SendAvailableCommands sample_visited sample_answers alice
    = (Ret (), alice, [WritePacket (PAvailableCommands {|
         AvailableCommands_Commands := [gamemode_descriptor] |})])
  ∧ ∃ cmds2 : list Command,
      SendAvailableCommands (reverse sample_visited) sample_answers alice
        = (Ret (), alice, [WritePacket (PAvailableCommands {|
             AvailableCommands_Commands := cmds2 |})])
      ∧ [gamemode_descriptor] ≡ₚ cmds2.
Proof.
  assert (sample_visited ≡ₚ reverse sample_visited) as Hperm
    by apply perm_swap.
  assert (SendAvailableCommands sample_visited sample_answers alice
          = (Ret (), alice, [WritePacket (PAvailableCommands {|
               AvailableCommands_Commands := [gamemode_descriptor] |})]))
    as Hrun by reflexivity.
  split; [exact Hperm|]. split; [exact Hrun|].
  exact (SendAvailableCommands_any_order
           sample_visited (reverse sample_visited) sample_answers alice
           [gamemode_descriptor] Hperm Hrun).
Defined.

(** X5 on [sample_commands]. *)
Lemma SendAvailableCommands_commands_witness :
  ranges_over sample_commands sample_visited
  ∧ SendAvailableCommands sample_visited sample_answers alice
    = (Ret (), alice, [WritePacket (PAvailableCommands {|
         AvailableCommands_Commands := [gamemode_descriptor] |})])
  ∧ gamemode_descriptor ∈ [gamemode_descriptor]
  ∧ ∃ c : cmd_Command,
      sample_commands !! "gamemode" = Some c
      ∧ Name c = "gamemode"
      ∧ Description c = "Sets the game mode"
      ∧ Aliases c = ["gm"; "gamemode"].
Proof.
  assert (ranges_over sample_commands sample_visited) as Hv.
  { unfold ranges_over. vm_compute. reflexivity. }
  assert (SendAvailableCommands sample_visited sample_answers alice
          = (Ret (), alice, [WritePacket (PAvailableCommands {|
               AvailableCommands_Commands := [gamemode_descriptor] |})]))
    as Hrun by reflexivity.
  assert (gamemode_descriptor ∈ [gamemode_descriptor]) as Hd
    by apply list_elem_of_here.
  split; [exact Hv|]. split; [exact Hrun|]. split; [exact Hd|].
  destruct (SendAvailableCommands_commands
              sample_commands sample_visited sample_answers alice
              [gamemode_descriptor] gamemode_descriptor Hv Hrun Hd)
    as (c & Hc & Hname & Hdescription & Haliases & _).
  exists c. repeat split; assumption.
Defined.

(** X6 on the bool parameter of the gamemode command. *)
Lemma SendAvailableCommands_parameters_witness :
  let p := {| CommandParameter_Name := "silent";
              CommandParameter_Type := 1048576;
              CommandParameter_Optional := true;
              CommandParameter_CollapseEnumOptions := true;
              CommandParameter_Enum := bool_enum;
              CommandParameter_Suffix := "" |} in
  let o := {| CommandOverload_Parameters := [
              {| CommandParameter_Name := "mode";
                 CommandParameter_Type := 1048577;
                 CommandParameter_Optional := false;
                 CommandParameter_CollapseEnumOptions := false;
                 CommandParameter_Enum := CommandEnum_zero;
                 CommandParameter_Suffix := "" |}; p ] |} in
  SendAvailableCommands sample_visited sample_answers alice
    = (Ret (), alice, [WritePacket (PAvailableCommands {|
         AvailableCommands_Commands := [gamemode_descriptor] |})])
  ∧ gamemode_descriptor ∈ [gamemode_descriptor]
  ∧ o ∈ Command_Overloads gamemode_descriptor
  ∧ p ∈ CommandOverload_Parameters o
  ∧ Z.land (CommandParameter_Type p) 1048576 = 1048576.
Proof.
  intros p o.
  assert (SendAvailableCommands sample_visited sample_answers alice
          = (Ret (), alice, [WritePacket (PAvailableCommands {|
               AvailableCommands_Commands := [gamemode_descriptor] |})]))
    as Hrun by reflexivity.
  assert (gamemode_descriptor ∈ [gamemode_descriptor]) as Hd
    by apply list_elem_of_here.
  assert (o ∈ Command_Overloads gamemode_descriptor) as Ho
    by apply list_elem_of_here.
  assert (p ∈ CommandOverload_Parameters o) as Hp
    by (apply list_elem_of_further, list_elem_of_here).
  split; [exact Hrun|]. split; [exact Hd|]. split; [exact Ho|].
  split; [exact Hp|].
  exact (proj1 (SendAvailableCommands_parameters (H := sample_externals)
                  sample_visited sample_answers alice
                  [gamemode_descriptor] gamemode_descriptor o p
                  Hrun Hd Ho Hp)).
Defined.

(** X10 on a closed session: the chat message that arrives is not
    passed on. *)
Lemma closed_session_handles_nothing_witness :
  controllableClosed bob_closed = true
  ∧ handlePackets [chat_turn "Bob" "still here?"] sample_answers bob_closed
    = (Ret (Some exit_controllable_closed), bob_closed,
       [Controllable_Close; Conn_Close; Println "Bob has left the game "]).
Proof.
  split; [reflexivity|].
  exact (closed_session_handles_nothing
           (chat_turn "Bob" "still here?") [] sample_answers bob_closed
           eq_refl).
Defined.

(** X11 on a closed session. *)
Lemma closed_stays_closed_witness :
  controllableClosed bob_closed = true
  ∧ controllableClosed
      (session_of (send (call_SendMessage "bye") sample_answers bob_closed))
    = true
  ∧ controllableClosed
      (session_of (handlePackets [chat_turn "Bob" "hi"] sample_answers
                     bob_closed))
    = true.
Proof.
  split; [reflexivity|].
  destruct (closed_stays_closed (call_SendMessage "bye") (POther 0)
              [chat_turn "Bob" "hi"] sample_answers bob_closed eq_refl)
    as (Hsend & _ & Hloop & _).
  split; [exact Hsend|exact Hloop].
Defined.

(** X13 on two messages from Alice. *)
Lemma loop_passes_chat_on_witness :
  controllableClosed alice = false
  ∧ handlePackets [chat_turn "Alice" "hi"; chat_turn "Alice" "anyone?"]
      sample_answers alice
    = (Ret None, alice, [Chat "hi"; Chat "anyone?"]).
Proof.
  split; [reflexivity|].
  exact (loop_passes_chat_on ["hi"; "anyone?"] sample_answers alice eq_refl).
Defined.

(** X14 on two command requests: the output goes to the second. *)
Lemma loop_keeps_last_origin_witness :
  controllableClosed alice = false
  ∧ Forall (λ pk, CommandRequest_Internal pk = false) sample_requests
  ∧ ∃ s' : @Session sample_externals,
      handlePackets (command_turn <$> sample_requests) sample_answers alice
        = (Ret None, s',
           [ExecuteCommand "/gamemode creative";
            ExecuteCommand "/time set day"])
      ∧ ∃ pk : CommandOutput,
          SendCommandOutput sample_output sample_answers s'
            = (Ret (), s', [WritePacket (PCommandOutput pk)])
          ∧ CommandOutput_CommandOrigin pk = "origin-2".
Proof.
  assert (Forall (λ pk : @CommandRequest sample_externals,
                    CommandRequest_Internal pk = false) sample_requests)
    as Hall by (repeat constructor).
  split; [reflexivity|]. split; [exact Hall|].
  destruct (loop_keeps_last_origin sample_requests sample_output
              sample_answers alice eq_refl Hall)
    as (s' & Hrun & _ & pk & Hout & Horigin).
  exists s'. split; [exact Hrun|].
  exists pk. split; [exact Hout|exact Horigin].
Defined.

(** X17: port 84668 is sent as 19132. *)
Lemma Transfer_port_classes_witness :
  0 ≤ 19132 < 2 ^ 16
  ∧ Transfer [] 84668 sample_answers alice
    = (Ret (), alice, [WritePacket (PTransfer {|
         Transfer_Address := "127.0.0.1";
         Transfer_Port := 19132 |})]).
Proof.
  assert (0 ≤ 19132 < 2 ^ 16) as Hport by lia.
  split; [exact Hport|].
  exact (Transfer_port_classes (H := sample_externals)
           [] 19132 1 sample_answers alice Hport).
Defined.

(** X18 on a parameter that is an enum too. *)
Lemma valueToParamType_of_parameter_witness :
  let i := VDyn (DNamed "GameMode") {|
             has_Parse := true;
             Type_method := Some "GameMode";
             Options_method := Some ["survival"; "creative"] |} in
  past_switch i = true
  ∧ (assertParameter i).2 = true
  ∧ call_Type (assertParameter i).1 = Ret "GameMode"
  ∧ valueToParamType (H := sample_externals) i
    = Ret (0, {| EnumType := "GameMode";
                 EnumOptions := ["survival"; "creative"] |}).
Proof.
  intros i. split; [reflexivity|]. split; [reflexivity|].
  split; [reflexivity|].
  exact (valueToParamType_of_parameter (H := sample_externals)
           i "GameMode" eq_refl eq_refl eq_refl).
Defined.

(** X20: Alice is disconnected while her next message is on its way. *)
Lemma Disconnect_ends_loop_witness :
  disconnects banned_turn ≠ []
  ∧ handlePackets [banned_turn; chat_turn "Alice" "hi"] sample_answers alice
    = (Ret (Some exit_controllable_closed),
       store_controllableClosed true alice,
       [WritePacket (Disconnect_packet "banned");
        Controllable_Close; Conn_Close; Println "Alice has left the game "]).
Proof.
  assert (disconnects banned_turn ≠ []) as Hd by done.
  split; [exact Hd|].
  exact (Disconnect_ends_loop banned_turn [chat_turn "Alice" "hi"]
           sample_answers alice Hd).
Defined.

(** ** Methods that panic when called *)

(** The assertion to [cmd.Parameter] holds for a nil [*Target], and the
    first call of [Type] panics. *)
Example valueToParamType_nil_Target_pointer :
  (assertParameter nil_Target_pointer).2 = true
  ∧ valueToParamType (H := sample_externals) nil_Target_pointer = Panic.
Proof. split; reflexivity. Qed.

Example valueToParamType_panicking_Options :
  valueToParamType (H := sample_externals) enum_with_panicking_Options
  = Panic.
Proof. reflexivity. Qed.

(** [SendCommandOutput] on a nil pointer. *)
Example SendCommandOutput_nil :
  send (call_SendCommandOutput None) sample_answers alice
  = (Panic, alice, []).
Proof. reflexivity. Qed.

(** C9 on one run for each way the loop returns: a read error, a
    [Disconnect] while the loop waits, and a chat message under another
    name after one that was passed on. *)
Lemma Close_once_witness :
  handlePackets [read_error_turn] sample_answers alice
    = (Ret (Some (exit_read_error {| Error := "EOF" |})), alice,
       [Controllable_Close; Conn_Close; Println "Alice has left the game "])
  ∧ handlePackets [banned_turn; chat_turn "Alice" "hi"] sample_answers alice
    = (Ret (Some exit_controllable_closed),
       store_controllableClosed true alice,
       [WritePacket (Disconnect_packet "banned");
        Controllable_Close; Conn_Close; Println "Alice has left the game "])
  ∧ handlePackets [chat_turn "Alice" "hi"; chat_turn "Bob" "hello"]
      sample_answers alice
    = (Ret (Some (exit_handler_error source_name_not_display_name)), alice,
       [Chat "hi"; Errorf source_name_not_display_name;
        Controllable_Close; Conn_Close; Println "Alice has left the game "]).
Proof.
  destruct (Close_once [] sample_answers alice) as (_ & _ & _ & Hturn).
  split; [|split].
  - destruct (Hturn read_error_turn []) as (Hread & _).
    exact (Hread {| Error := "EOF" |} eq_refl).
  - destruct (Hturn banned_turn [chat_turn "Alice" "hi"])
      as (_ & Hclosed & _).
    exact (Hclosed (POther 9) eq_refl eq_refl).
  - destruct (Hturn (chat_turn "Alice" "hi") [chat_turn "Bob" "hello"])
      as (_ & _ & _ & Hnext).
    rewrite (Hnext _ alice [Chat "hi"] eq_refl eq_refl eq_refl).
    destruct (Hturn (chat_turn "Bob" "hello") []) as (_ & _ & Herror & _).
    rewrite (Herror _ source_name_not_display_name alice [] eq_refl eq_refl
               eq_refl).
    reflexivity.
Defined.
